(** * Backup upload to S3: key naming, upload dispatch, connectivity check
      and credential export of [neo4j-admin/backup/aws/operations.go].

    The Go code is embedded shallowly.  Strings are Go strings, that is byte
    sequences ([string] of [ascii]); indices are Go [int]s, kept in [Z]; a
    slice expression whose bounds are out of range panics, which the model
    writes as [None].  Calls that reach outside the process (file system,
    S3, credential provider, environment store) run in a state monad over
    an explicit [World]. *)

From Stdlib Require Import ZArith Ascii String Bool Lia.
From stdpp Require Import gmap strings list.

Local Open Scope Z_scope.

(** ** Go strings: [len], slice expressions, [strings.Index], [strings.Contains] *)

Module GoString.

(** [len(s)]: the number of bytes. *)
Definition len (s : string) : Z := Z.of_nat (String.length s).

Fixpoint drop (n : nat) (s : string) : string :=
  match n, s with
  | O, _ => s
  | S n', String _ s' => drop n' s'
  | S _, EmptyString => EmptyString
  end.

Fixpoint take (n : nat) (s : string) : string :=
  match n, s with
  | O, _ => EmptyString
  | S n', String c s' => String c (take n' s')
  | S _, EmptyString => EmptyString
  end.

(** [s[lo:]]; Go panics unless [0 <= lo <= len(s)]. *)
Definition slice_from (s : string) (lo : Z) : option string :=
  if (0 <=? lo) && (lo <=? len s) then Some (drop (Z.to_nat lo) s) else None.

(** [s[:hi]]; Go panics unless [0 <= hi <= len(s)]. *)
Definition slice_to (s : string) (hi : Z) : option string :=
  if (0 <=? hi) && (hi <=? len s) then Some (take (Z.to_nat hi) s) else None.

(** [strings.HasPrefix(s, prefix)]. *)
Fixpoint HasPrefix (s prefix : string) {struct prefix} : bool :=
  match prefix, s with
  | EmptyString, _ => true
  | String _ _, EmptyString => false
  | String c p', String d s' => Ascii.eqb c d && HasPrefix s' p'
  end.

(** [strings.Index(s, substr)]: the byte index of the first instance of
    [substr] in [s], or [-1] when there is none. *)
Fixpoint Index (s substr : string) : Z :=
  if HasPrefix s substr then 0
  else match s with
       | EmptyString => -1
       | String _ s' =>
           let i := Index s' substr in
           if i <? 0 then -1 else i + 1
       end.

(** [strings.Contains(s, substr)], which Go defines as
    [Index(s, substr) >= 0]. *)
Definition Contains (s substr : string) : bool := 0 <=? Index s substr.

(** [fmt.Sprintf("%s/%s", a, b)]. *)
Definition Sprintf_s_slash_s (a b : string) : string := a +:+ "/" +:+ b.

(** *** Specification vocabulary, independent of [Index] *)

(** The byte [c] occurs somewhere in [s]. *)
Definition occurs (c : ascii) (s : string) : Prop :=
  exists pre post, s = pre +:+ String c post.

(** [s] splits at its first [c] into [pre] and [post]. *)
Definition first_split (c : ascii) (s pre post : string) : Prop :=
  s = pre +:+ String c post /\ ~ occurs c pre.

(** [occurs] is decidable by a scan of the bytes. *)
Fixpoint occursb (c : ascii) (s : string) : bool :=
  match s with
  | EmptyString => false
  | String d s' => Ascii.eqb d c || occursb c s'
  end.

End GoString.

Import GoString.

(** ** Values exchanged with the operating system and the AWS SDK *)

(** A Go [error]; the verb [%v] prints its message. *)
Record error := errors_New { Error : string }.

(** [*os.File], identified by its descriptor. *)
Definition File := nat.

(** [aws.Credentials], the fields the code reads. *)
Record Credentials := mkCredentials {
  AccessKeyID : string;
  SecretAccessKey : string
}.

(** [aws.Config], the field the code reads besides the credential provider
    (the provider answers through the collaborators below). *)
Record Config := mkConfig { Region : string }.

Record awsClient := mkAwsClient { cfg : Config }.

(** [resolverV2]: the endpoint resolver set when a custom endpoint is used;
    it falls back to the SDK's default resolver. *)
Inductive EndpointResolver := resolverV2.

(** [*s3.Client]: the configuration it was built from and the options that
    [getS3Client] sets. *)
Record s3_Client := mkClient {
  client_cfg : Config;
  BaseEndpoint : option string;
  EndpointResolverV2 : option EndpointResolver;
  UsePathStyle : bool
}.

(** [s3.NewFromConfig(cfg)] without option functions. *)
Definition s3_NewFromConfig (c : Config) : s3_Client :=
  mkClient c None None false.

Record ListObjectsV2Input := mkListInput {
  list_Bucket : option string;
  list_Prefix : option string
}.

(** [s3.ListObjectsV2Output]: [Contents] holds the keys of the first page. *)
Record ListObjectsV2Output := mkListOutput { Contents : list string }.

Record PutObjectInput := mkPutInput {
  Bucket : string;
  Key : string;
  Body : File
}.

(** [manager.Uploader]. *)
Record Uploader := mkUploader {
  uploader_client : s3_Client;
  PartSize : Z
}.

(** [manager.DefaultUploadPartSize], 5 MiB. *)
Definition DefaultUploadPartSize : Z := 1024 * 1024 * 5.

(** [manager.NewUploader(client, options)]. *)
Definition manager_NewUploader (c : s3_Client) (options : Uploader -> Uploader)
  : Uploader :=
  options (mkUploader c DefaultUploadPartSize).

(** [int64] arithmetic wraps around. *)
Definition int64_wrap (z : Z) : Z := (z + 2 ^ 63) mod 2 ^ 64 - 2 ^ 63.
Definition int64_mul (x y : Z) : Z := int64_wrap (x * y).

(** ** The world outside the functions *)

(** One call to a collaborator, with its arguments and its answer. *)
Inductive Event :=
| EvStat (path : string) (r : Z + error)
| EvOpen (path : string) (r : File + error)
| EvClose (f : File)
| EvPutObject (c : s3_Client) (input : PutObjectInput) (r : option error)
| EvUpload (u : Uploader) (input : PutObjectInput) (r : option error)
| EvListObjectsV2 (c : s3_Client) (input : ListObjectsV2Input)
    (r : ListObjectsV2Output + error)
| EvRetrieve (r : Credentials + error)
| EvSetenv (key value : string) (r : option error).

(** The error a call answered with, if any. *)
Definition error_of (e : Event) : option error :=
  match e with
  | EvStat _ (inr err) | EvOpen _ (inr err) | EvListObjectsV2 _ _ (inr err)
  | EvRetrieve (inr err) => Some err
  | EvPutObject _ _ r | EvUpload _ _ r | EvSetenv _ _ r => r
  | _ => None
  end.

(** The environment variables written by a sequence of calls, in order. *)
Fixpoint setenv_keys (calls : list Event) : list string :=
  match calls with
  | [] => []
  | EvSetenv key _ _ :: rest => key :: setenv_keys rest
  | _ :: rest => setenv_keys rest
  end.

(** The collaborators.  Each answers as a function of the calls made so
    far, so no assumption is made on how the file system, S3, the
    credential provider or the environment store behave over time. *)
Record Oracle := mkOracle {
  stat_result : list Event -> string -> Z + error;
  open_result : list Event -> string -> File + error;
  put_result : list Event -> s3_Client -> PutObjectInput -> option error;
  upload_result : list Event -> Uploader -> PutObjectInput -> option error;
  list_result :
    list Event -> s3_Client -> ListObjectsV2Input -> ListObjectsV2Output + error;
  retrieve_result : list Event -> Credentials + error;
  setenv_result : list Event -> string -> string -> option error
}.

(** What the functions run against: [strings.TrimSpace], which is Go
    library code and taken as given, and the collaborators. *)
Class Runtime := mkRuntime {
  strings_TrimSpace : string -> string;
  oracle : Oracle
}.

(** Process state: the environment, the open file descriptors and the calls
    made so far. *)
Record World := mkWorld {
  environ : gmap string string;
  open_files : list File;
  trace : list Event
}.

Definition record_event (e : Event) (w : World) : World :=
  mkWorld (environ w) (open_files w) (trace w ++ [e]).

Definition release (f : File) (fs : list File) : list File :=
  List.filter (fun g => negb (Nat.eqb g f)) fs.

(** A computation: [None] is a runtime panic, [Some a] a normal return. *)
Definition M (A : Type) : Type := World -> option A * World.

Definition ret {A} (a : A) : M A := fun w => (Some a, w).

Definition bind {A B} (m : M A) (k : A -> M B) : M B :=
  fun w => match m w with
           | (Some a, w') => k a w'
           | (None, w') => (None, w')
           end.

Notation "'let*' x ':=' m 'in' k" := (bind m (fun x => k))
  (at level 10, x pattern, m at level 100, k at level 200).

(** A pure expression that may panic. *)
Definition panics {A} (r : option A) : M A := fun w => (r, w).

(** [defer d] before [body]: [d] runs when the function returns, also when
    [body] panics. *)
Definition defer {A} (d : M unit) (body : M A) : M A :=
  fun w => let '(r, w1) := body w in (r, snd (d w1)).

Definition nl : string := String "010"%char "".

(** ** Strategy of an upload *)

Inductive UploadStrategy := Direct | Multipart.

(** Modelled from the spec: the size classification of
    [common.IsFileBigger], whose source is outside the files at hand.
    Threshold 1 GiB (1024^3 bytes): [sizeBytes >= threshold] gives
    [Multipart], anything else [Direct]. *)
Definition classify (sizeBytes : Z) : UploadStrategy :=
  if 1024 * 1024 * 1024 <=? sizeBytes then Multipart else Direct.

Definition is_Multipart (s : UploadStrategy) : bool :=
  match s with Multipart => true | Direct => false end.

(** ** Key naming *)

(** [UploadFile], lines 61-67: the bucket the S3 calls are addressed to. *)
Definition parentBucketName (bucketName : string) : option string :=
  if Contains bucketName "/" then
    let index := Index bucketName "/" in
    slice_to bucketName index
  else Some bucketName.

Definition generateKeyName (bucketName fileName : string) : option string :=
  let keyName := fileName in
  if Contains bucketName "/" then
    let index := Index bucketName "/" in
    match slice_from bucketName (index + 1) with
    | Some rest => Some (Sprintf_s_slash_s rest fileName)
    | None => None
    end
  else Some keyName.

(** Key resolution as [UploadFile] performs it for one file: the bucket and
    the key of the request. *)
Definition resolve (bucketAddress fileName : string) : option (string * string) :=
  match parentBucketName bucketAddress, generateKeyName bucketAddress fileName with
  | Some b, Some k => Some (b, k)
  | _, _ => None
  end.

(** ** The functions of [operations.go]

    [log.Printf] calls only write to the process log and are left out. *)

Section Operations.

Context {rt : Runtime}.

(** *** Calls to the collaborators *)

(** [os.Getenv]: the empty string when the variable is unset. *)
Definition os_Getenv (key : string) : M string :=
  fun w => (Some (default "" (environ w !! key)), w).

(** [os.Setenv]: a rejected write leaves the environment as it was. *)
Definition os_Setenv (key value : string) : M (option error) :=
  fun w =>
    let r := setenv_result oracle (trace w) key value in
    let env' := match r with
                | None => <[key:=value]> (environ w)
                | Some _ => environ w
                end in
    (Some r, mkWorld env' (open_files w) (trace w ++ [EvSetenv key value r])).

(** Modelled from the spec: the file-system stat by which
    [common.IsFileBigger] determines the size of the file at a path; it
    gives the size in bytes or an I/O error. *)
Definition os_Stat_Size (path : string) : M (Z + error) :=
  fun w =>
    let r := stat_result oracle (trace w) path in
    (Some r, record_event (EvStat path r) w).

(** [os.Open]: on success the descriptor joins the open descriptors. *)
Definition os_Open (path : string) : M (File + error) :=
  fun w =>
    let r := open_result oracle (trace w) path in
    let fds := match r with
               | inl f => f :: open_files w
               | inr _ => open_files w
               end in
    (Some r, mkWorld (environ w) fds (trace w ++ [EvOpen path r])).

(** [file.Close()]; the code drops the error it returns. *)
Definition file_Close (f : File) : M unit :=
  fun w =>
    (Some tt, mkWorld (environ w) (release f (open_files w))
                      (trace w ++ [EvClose f])).

(** [client.PutObject(ctx, input)]; the code drops the output. *)
Definition PutObject (c : s3_Client) (input : PutObjectInput)
  : M (option error) :=
  fun w =>
    let r := put_result oracle (trace w) c input in
    (Some r, record_event (EvPutObject c input r) w).

(** [uploader.Upload(ctx, input)]; the code drops the output. *)
Definition Upload (u : Uploader) (input : PutObjectInput) : M (option error) :=
  fun w =>
    let r := upload_result oracle (trace w) u input in
    (Some r, record_event (EvUpload u input r) w).

(** [client.ListObjectsV2(ctx, input)]. *)
Definition ListObjectsV2 (c : s3_Client) (input : ListObjectsV2Input)
  : M (ListObjectsV2Output + error) :=
  fun w =>
    let r := list_result oracle (trace w) c input in
    (Some r, record_event (EvListObjectsV2 c input r) w).

(** [a.cfg.Credentials.Retrieve(ctx)]. *)
Definition Credentials_Retrieve (a : awsClient) : M (Credentials + error) :=
  fun w =>
    let r := retrieve_result oracle (trace w) in
    (Some r, record_event (EvRetrieve r) w).

(** Modelled from the spec: [common.IsFileBigger], whose source is outside
    the files at hand.  The size is determined by a file-system stat; a
    failing stat is returned as the error; otherwise the answer is the
    classification of the size. *)
Definition IsFileBigger (filePath : string) : M (bool * option error) :=
  let* r := os_Stat_Size filePath in
  match r with
  | inr err => ret (false, Some err)
  | inl sizeBytes => ret (is_Multipart (classify sizeBytes), None)
  end.

(** *** [getS3Client] *)

Definition getS3Client (a : awsClient) : M s3_Client :=
  let client := s3_NewFromConfig (cfg a) in
  let* value := os_Getenv "ENDPOINT" in
  if negb (String.eqb (strings_TrimSpace value) "") then
    ret (mkClient (cfg a) (Some value) (Some resolverV2) true)
  else ret client.

(** *** [CheckBucketAccess] *)

Definition CheckBucketAccess (a : awsClient) (bucketName : string)
  : M (option error) :=
  let* client := getS3Client a in
  let s3Input := mkListInput (Some bucketName) None in
  let* s3Input :=
    if Contains bucketName "/" then
      let firstIndex := Index bucketName "/" in
      let* name := panics (slice_to bucketName firstIndex) in
      let* prefix := panics (slice_from bucketName (firstIndex + 1)) in
      ret (mkListInput (Some name) (Some prefix))
    else ret s3Input in
  let* r := ListObjectsV2 client s3Input in
  match r with
  | inr err =>
      ret (Some (errors_New
        ("Unable to connect to s3 bucket " +:+ bucketName +:+ " " +:+ nl
         +:+ " Here's why: " +:+ Error err +:+ nl)))
  | inl objects =>
      if Contains bucketName "/" && (length (Contents objects) =? 0)%nat then
        ret (Some (errors_New
          ("s3 Bucket " +:+ bucketName +:+ " does not exist")))
      else ret None
  end.

(** *** [UploadLargeObject] *)

Definition UploadLargeObject (a : awsClient)
    (fileName location bucketName parentBucketName : string)
  : M (option error) :=
  let filePath := Sprintf_s_slash_s location fileName in
  let partGiBs : Z := 1 in
  let* s3Client := getS3Client a in
  let uploader :=
    manager_NewUploader s3Client (fun u =>
      mkUploader (uploader_client u)
        (int64_mul (int64_mul (int64_mul partGiBs 1024) 1024) 1024)) in
  let* r := os_Open filePath in
  match r with
  | inr err =>
      ret (Some (errors_New
        ("Couldn't open large file " +:+ filePath
         +:+ " to upload. Here's why: " +:+ Error err +:+ nl)))
  | inl file =>
      defer (file_Close file)
        (let* keyName := panics (generateKeyName bucketName fileName) in
         let* err := Upload uploader
                       (mkPutInput parentBucketName keyName file) in
         match err with
         | Some e =>
             ret (Some (errors_New
               ("Couldn't upload large file " +:+ filePath +:+ " to "
                +:+ bucketName +:+ ":" +:+ fileName
                +:+ ". Here's why: " +:+ Error e +:+ nl)))
         | None => ret err
         end)
  end.

(** *** [UploadFile] *)

(** One iteration of the loop over [fileNames]: [Some err] is
    [return err], [None] goes on to the next file. *)
Definition UploadFile_iteration (a : awsClient) (s3Client : s3_Client)
    (location bucketName parentBucketName fileName : string)
  : M (option error) :=
  let filePath := Sprintf_s_slash_s location fileName in
  let* (yes, err) := IsFileBigger filePath in
  match err with
  | Some e => ret (Some e)
  | None =>
      if yes : bool then
        let* err := UploadLargeObject a fileName location bucketName
                      parentBucketName in
        match err with
        | Some e => ret (Some e)
        | None => ret None
        end
      else
        let* r := os_Open filePath in
        match r with
        | inr err =>
            ret (Some (errors_New
              ("Couldn't open file " +:+ filePath
               +:+ " to upload. Here's why: " +:+ Error err +:+ nl)))
        | inl file =>
            let* keyName := panics (generateKeyName bucketName fileName) in
            let* err := PutObject s3Client
                          (mkPutInput parentBucketName keyName file) in
            match err with
            | Some e =>
                ret (Some (errors_New
                  ("Couldn't upload file " +:+ filePath +:+ " to "
                   +:+ bucketName +:+ ":" +:+ fileName
                   +:+ ". Here's why: " +:+ Error e +:+ nl)))
            | None =>
                let* _ := file_Close file in
                ret None
            end
        end
  end.

Fixpoint UploadFile_loop (a : awsClient) (s3Client : s3_Client)
    (location bucketName parentBucketName : string) (fileNames : list string)
  : M (option error) :=
  match fileNames with
  | [] => ret None
  | fileName :: rest =>
      let* r := UploadFile_iteration a s3Client location bucketName
                  parentBucketName fileName in
      match r with
      | Some err => ret (Some err)
      | None => UploadFile_loop a s3Client location bucketName
                  parentBucketName rest
      end
  end.

Definition UploadFile (a : awsClient) (fileNames : list string)
    (bucketName : string) : M (option error) :=
  let* s3Client := getS3Client a in
  let* parentBucketName := panics (parentBucketName bucketName) in
  let* location := os_Getenv "LOCATION" in
  UploadFile_loop a s3Client location bucketName parentBucketName fileNames.

(** *** [GenerateEnvVariablesFromCredentials] *)

Definition GenerateEnvVariablesFromCredentials (a : awsClient)
  : M (option error) :=
  let* r := Credentials_Retrieve a in
  match r with
  | inr err => ret (Some err)
  | inl creds =>
      let* err := os_Setenv "AWS_ACCESS_KEY_ID" (AccessKeyID creds) in
      match err with
      | Some e => ret (Some e)
      | None =>
          let* err := os_Setenv "AWS_SECRET_ACCESS_KEY" (SecretAccessKey creds) in
          match err with
          | Some e => ret (Some e)
          | None =>
              let* err := os_Setenv "AWS_REGION" (Region (cfg a)) in
              match err with
              | Some e => ret (Some e)
              | None => ret None
              end
          end
      end
  end.

(** *** Vocabulary for the properties of the upload

    What a caller can observe of one file's attempt, read off the answers
    of the collaborators. *)

Definition location_of (w : World) : string :=
  default "" (environ w !! "LOCATION").

Definition filePath_of (w : World) (fileName : string) : string :=
  location_of w +:+ "/" +:+ fileName.

(** The 1 GiB part size, in bytes. *)
Definition GiB : Z := 1073741824.

(** The attempt of [fileName] starting in [w] fails with an error, ending
    in a world: stat, open, or upload (direct or multipart). *)
Inductive file_fails (a : awsClient) (bucketName fileName : string)
    (w : World) : error -> World -> Prop :=
| stat_fails err :
    stat_result oracle (trace w) (filePath_of w fileName) = inr err ->
    file_fails a bucketName fileName w err
      (mkWorld (environ w) (open_files w)
         (trace w ++ [EvStat (filePath_of w fileName) (inr err)]))
| open_fails sizeBytes err :
    stat_result oracle (trace w) (filePath_of w fileName) = inl sizeBytes ->
    open_result oracle
      (trace w ++ [EvStat (filePath_of w fileName) (inl sizeBytes)])
      (filePath_of w fileName) = inr err ->
    file_fails a bucketName fileName w
      (errors_New
         ("Couldn't open "
          +:+ match classify sizeBytes with
              | Direct => "file "
              | Multipart => "large file "
              end
          +:+ filePath_of w fileName
          +:+ " to upload. Here's why: " +:+ Error err +:+ nl))
      (mkWorld (environ w) (open_files w)
         (trace w ++ [EvStat (filePath_of w fileName) (inl sizeBytes);
                      EvOpen (filePath_of w fileName) (inr err)]))
| direct_upload_fails sizeBytes file client b k err :
    stat_result oracle (trace w) (filePath_of w fileName) = inl sizeBytes ->
    classify sizeBytes = Direct ->
    open_result oracle
      (trace w ++ [EvStat (filePath_of w fileName) (inl sizeBytes)])
      (filePath_of w fileName) = inl file ->
    getS3Client a w = (Some client, w) ->
    resolve bucketName fileName = Some (b, k) ->
    put_result oracle
      (trace w ++ [EvStat (filePath_of w fileName) (inl sizeBytes);
                   EvOpen (filePath_of w fileName) (inl file)])
      client (mkPutInput b k file) = Some err ->
    file_fails a bucketName fileName w
      (errors_New
         ("Couldn't upload file " +:+ filePath_of w fileName +:+ " to "
          +:+ bucketName +:+ ":" +:+ fileName
          +:+ ". Here's why: " +:+ Error err +:+ nl))
      (mkWorld (environ w) (file :: open_files w)
         (trace w ++ [EvStat (filePath_of w fileName) (inl sizeBytes);
                      EvOpen (filePath_of w fileName) (inl file);
                      EvPutObject client (mkPutInput b k file) (Some err)]))
| multipart_upload_fails sizeBytes file client b k err :
    stat_result oracle (trace w) (filePath_of w fileName) = inl sizeBytes ->
    classify sizeBytes = Multipart ->
    open_result oracle
      (trace w ++ [EvStat (filePath_of w fileName) (inl sizeBytes)])
      (filePath_of w fileName) = inl file ->
    getS3Client a w = (Some client, w) ->
    resolve bucketName fileName = Some (b, k) ->
    upload_result oracle
      (trace w ++ [EvStat (filePath_of w fileName) (inl sizeBytes);
                   EvOpen (filePath_of w fileName) (inl file)])
      (mkUploader client GiB) (mkPutInput b k file) = Some err ->
    file_fails a bucketName fileName w
      (errors_New
         ("Couldn't upload large file " +:+ filePath_of w fileName +:+ " to "
          +:+ bucketName +:+ ":" +:+ fileName
          +:+ ". Here's why: " +:+ Error err +:+ nl))
      (mkWorld (environ w) (release file (file :: open_files w))
         (trace w ++ [EvStat (filePath_of w fileName) (inl sizeBytes);
                      EvOpen (filePath_of w fileName) (inl file);
                      EvUpload (mkUploader client GiB) (mkPutInput b k file)
                        (Some err);
                      EvClose file])).

(** The attempt of [fileName] starting in [w] succeeds, ending in a
    world. *)
Inductive file_succeeds (a : awsClient) (bucketName fileName : string)
    (w : World) : World -> Prop :=
| direct_upload_succeeds sizeBytes file client b k :
    stat_result oracle (trace w) (filePath_of w fileName) = inl sizeBytes ->
    classify sizeBytes = Direct ->
    open_result oracle
      (trace w ++ [EvStat (filePath_of w fileName) (inl sizeBytes)])
      (filePath_of w fileName) = inl file ->
    getS3Client a w = (Some client, w) ->
    resolve bucketName fileName = Some (b, k) ->
    put_result oracle
      (trace w ++ [EvStat (filePath_of w fileName) (inl sizeBytes);
                   EvOpen (filePath_of w fileName) (inl file)])
      client (mkPutInput b k file) = None ->
    file_succeeds a bucketName fileName w
      (mkWorld (environ w) (release file (file :: open_files w))
         (trace w ++ [EvStat (filePath_of w fileName) (inl sizeBytes);
                      EvOpen (filePath_of w fileName) (inl file);
                      EvPutObject client (mkPutInput b k file) None;
                      EvClose file]))
| multipart_upload_succeeds sizeBytes file client b k :
    stat_result oracle (trace w) (filePath_of w fileName) = inl sizeBytes ->
    classify sizeBytes = Multipart ->
    open_result oracle
      (trace w ++ [EvStat (filePath_of w fileName) (inl sizeBytes)])
      (filePath_of w fileName) = inl file ->
    getS3Client a w = (Some client, w) ->
    resolve bucketName fileName = Some (b, k) ->
    upload_result oracle
      (trace w ++ [EvStat (filePath_of w fileName) (inl sizeBytes);
                   EvOpen (filePath_of w fileName) (inl file)])
      (mkUploader client GiB) (mkPutInput b k file) = None ->
    file_succeeds a bucketName fileName w
      (mkWorld (environ w) (release file (file :: open_files w))
         (trace w ++ [EvStat (filePath_of w fileName) (inl sizeBytes);
                      EvOpen (filePath_of w fileName) (inl file);
                      EvUpload (mkUploader client GiB) (mkPutInput b k file)
                        None;
                      EvClose file])).

(** Every file of the list succeeds, one after the other. *)
Inductive files_succeed (a : awsClient) (bucketName : string)
  : list string -> World -> World -> Prop :=
| no_file w : files_succeed a bucketName [] w w
| next_file fileName rest w w1 w2 :
    file_succeeds a bucketName fileName w w1 ->
    files_succeed a bucketName rest w1 w2 ->
    files_succeed a bucketName (fileName :: rest) w w2.

End Operations.

(** ** Vocabulary for the properties of whole runs *)


(** A call to the file system or an upload request. *)
Definition is_upload_call (e : Event) : bool :=
  match e with
  | EvStat _ _ | EvOpen _ _ | EvClose _ | EvPutObject _ _ _ | EvUpload _ _ _ =>
      true
  | _ => false
  end.

(** An upload request is made with [client] to [bucket], a multipart one in
    parts of 1 GiB; other calls are not constrained. *)
Definition request_to (client : s3_Client) (bucket : string) (e : Event)
  : Prop :=
  match e with
  | EvPutObject c input _ => c = client /\ Bucket input = bucket
  | EvUpload u input _ => u = mkUploader client GiB /\ Bucket input = bucket
  | _ => True
  end.

(** The path a stat or an open is made on. *)
Definition path_of (e : Event) : option string :=
  match e with
  | EvStat path _ | EvOpen path _ => Some path
  | _ => None
  end.

(** [sub] occurs in [s] as a run of consecutive bytes. *)
Definition substring_of (sub s : string) : Prop :=
  exists pre post, s = pre +:+ sub +:+ post.

(** ** Sample collaborators, for running the functions on concrete inputs *)

Module Sample.

Fixpoint trim_left (s : string) : string :=
  match s with
  | String c s' => if Ascii.is_space c then trim_left s' else s
  | EmptyString => EmptyString
  end.

(** Trimming of ASCII white space. *)
Definition trim (s : string) : string :=
  String.rev (trim_left (String.rev (trim_left s))).

(** [big.dump] is 2 GiB, every other file 10 bytes; [b.dump] cannot be
    opened, and a descriptor is numbered by the calls made before it; a
    direct upload under a key ending in [bad.dump] is denied, as is every
    multipart upload into bucket [denied]; listings succeed and are empty
    except under prefix [test]; the first retrieval gives usable
    credentials, a later one a secret key with a NUL byte; the environment
    store rejects values with a NUL byte. *)
Definition collaborators : Oracle :=
  mkOracle
    (fun _ path =>
       if String.eqb path "/backups/big.dump"
       then inl (2 * 1024 * 1024 * 1024) else inl 10)
    (fun tr path =>
       if String.eqb path "/backups/b.dump"
       then inr (errors_New "no such file") else inl (length tr))
    (fun _ _ input =>
       if String.eqb (Key input) "bad.dump"
       then Some (errors_New "AccessDenied") else None)
    (fun _ _ input =>
       if String.eqb (Bucket input) "denied"
       then Some (errors_New "AccessDenied") else None)
    (fun _ _ input =>
       match list_Prefix input with
       | Some "test" => inl (mkListOutput ["test/a.dump"])
       | _ => inl (mkListOutput [])
       end)
    (fun tr =>
       match tr with
       | [] => inl (mkCredentials "AKIAEXAMPLE" "s3cr3t")
       | _ :: _ => inl (mkCredentials "AKIAROTATED" (String "000"%char "x"))
       end)
    (fun _ _ value =>
       if occursb "000"%char value
       then Some (errors_New "setenv: invalid argument") else None).

Definition runtime : Runtime := mkRuntime trim collaborators.

Definition world : World := mkWorld {[ "LOCATION" := "/backups" ]} [] [].

Definition client : awsClient := mkAwsClient (mkConfig "eu-west-1").

Definition plain_s3 : s3_Client := s3_NewFromConfig (mkConfig "eu-west-1").

(** The world after a connectivity check of bucket [demo]. *)
Definition world_checked : World :=
  mkWorld {[ "LOCATION" := "/backups" ]} []
    [EvListObjectsV2 plain_s3 (mkListInput (Some "demo") None)
       (inl (mkListOutput []))].

End Sample.

(** ** Go strings: facts *)

Module GoStringFacts.
Import GoString.

Lemma app_nil_l (t : string) : "" +:+ t = t.
Proof. reflexivity. Qed.

Lemma app_cons d (s t : string) : String d s +:+ t = String d (s +:+ t).
Proof. reflexivity. Qed.

Lemma app_assoc_char (s : string) c t :
  (s +:+ String c "") +:+ t = s +:+ String c t.
Proof.
  induction s as [|d s IH]; [reflexivity|].
  now rewrite !app_cons, IH.
Qed.

Lemma occurs_empty c : ~ occurs c "".
Proof. intros [[|d pre] [post H]]; discriminate H. Qed.

Lemma occurs_cons c d s : occurs c (String d s) <-> d = c \/ occurs c s.
Proof.
  split.
  - intros [[|e pre] [post H]];
      rewrite ?app_nil_l, ?app_cons in H; injection H as -> ->.
    + now left.
    + right. now exists pre, post.
  - intros [-> | [pre [post ->]]].
    + now exists EmptyString, s.
    + now exists (String d pre), post.
Qed.

Lemma len_nonneg s : 0 <= len s.
Proof. unfold len. lia. Qed.

Lemma len_cons c s : len (String c s) = len s + 1.
Proof. unfold len. simpl String.length. lia. Qed.

Lemma len_app s t : len (s +:+ t) = len s + len t.
Proof.
  induction s as [|d s IH]; [rewrite app_nil_l; unfold len; simpl; lia|].
  rewrite app_cons, !len_cons, IH. lia.
Qed.

Lemma HasPrefix_char c s :
  HasPrefix s (String c "") = match s with
                              | String d _ => Ascii.eqb c d
                              | EmptyString => false
                              end.
Proof. destruct s as [|d s]; simpl; [reflexivity | apply andb_true_r]. Qed.

(** [Index] for a one-byte pattern is the position of the first split. *)
Lemma Index_char_first_split c s pre post :
  first_split c s pre post -> Index s (String c "") = len pre.
Proof.
  intros [-> Hpre]. induction pre as [|d pre IH].
  - rewrite app_nil_l. simpl. now rewrite Ascii.eqb_refl.
  - assert (Hd : d <> c) by (intros ->; apply Hpre, occurs_cons; now left).
    assert (Hp : ~ occurs c pre) by (intros H; apply Hpre, occurs_cons; now right).
    specialize (IH Hp). rewrite app_cons.
    change (Index (String d (pre +:+ String c post)) (String c ""))
      with (if HasPrefix (String d (pre +:+ String c post)) (String c "") then 0
            else let i := Index (pre +:+ String c post) (String c "") in
                 if i <? 0 then -1 else i + 1).
    rewrite HasPrefix_char.
    destruct (Ascii.eqb_spec c d) as [E|_]; [congruence|].
    cbv zeta. rewrite IH, len_cons.
    pose proof (len_nonneg pre).
    destruct (Z.ltb_spec (len pre) 0); lia.
Qed.

Lemma Index_char_absent c s :
  ~ occurs c s -> Index s (String c "") = -1.
Proof.
  induction s as [|d s IH]; intros H.
  - reflexivity.
  - assert (Hd : d <> c) by (intros ->; apply H, occurs_cons; now left).
    assert (Hs : ~ occurs c s) by (intros H'; apply H, occurs_cons; now right).
    change (Index (String d s) (String c ""))
      with (if HasPrefix (String d s) (String c "") then 0
            else let i := Index s (String c "") in
                 if i <? 0 then -1 else i + 1).
    rewrite HasPrefix_char.
    destruct (Ascii.eqb_spec c d) as [E|_]; [congruence|].
    cbv zeta. now rewrite (IH Hs).
Qed.

(** Every string either has no [c] or splits at its first [c]. *)
Lemma occurs_dec_split c s :
  ~ occurs c s \/ exists pre post, first_split c s pre post.
Proof.
  induction s as [|d s IH].
  - left. apply occurs_empty.
  - destruct (ascii_dec d c) as [->|Hd].
    + right. exists EmptyString, s. split; [reflexivity | apply occurs_empty].
    + destruct IH as [Hno | [pre [post [-> Hpre]]]].
      * left. rewrite occurs_cons. tauto.
      * right. exists (String d pre), post. split; [reflexivity|].
        rewrite occurs_cons. tauto.
Qed.

Lemma first_split_occurs c s pre post : first_split c s pre post -> occurs c s.
Proof. intros [-> _]. now exists pre, post. Qed.

(** The first split is unique. *)
Lemma first_split_unique c s pre post pre' post' :
  first_split c s pre post -> first_split c s pre' post' ->
  pre = pre' /\ post = post'.
Proof.
  intros [-> Hpre]. revert pre' Hpre.
  induction pre as [|d pre IH]; intros [|d' pre'] Hpre [Heq Hpre'];
    rewrite ?app_nil_l, ?app_cons in Heq.
  - injection Heq as ->. now split.
  - injection Heq as <- _. exfalso. apply Hpre', occurs_cons. now left.
  - injection Heq as -> _. exfalso. apply Hpre, occurs_cons. now left.
  - injection Heq as <- Heq.
    destruct (IH pre') as [-> ->].
    + intros H. apply Hpre, occurs_cons. now right.
    + split; [exact Heq|]. intros H. apply Hpre', occurs_cons. now right.
    + now split.
Qed.

Lemma Contains_char_true c s :
  occurs c s -> Contains s (String c "") = true.
Proof.
  intros H. destruct (occurs_dec_split c s) as [Hno | [pre [post Hs]]];
    [contradiction|].
  unfold Contains. rewrite (Index_char_first_split _ _ _ _ Hs).
  apply Z.leb_le, len_nonneg.
Qed.

Lemma Contains_char_false c s :
  ~ occurs c s -> Contains s (String c "") = false.
Proof. intros H. unfold Contains. now rewrite (Index_char_absent _ _ H). Qed.

Lemma take_app_len pre t : take (Z.to_nat (len pre)) (pre +:+ t) = pre.
Proof.
  unfold len. rewrite Nat2Z.id.
  induction pre as [|d pre IH].
  - rewrite app_nil_l. now destruct t.
  - rewrite app_cons. simpl. now rewrite IH.
Qed.

Lemma drop_app_len pre t : drop (Z.to_nat (len pre)) (pre +:+ t) = t.
Proof.
  unfold len. rewrite Nat2Z.id.
  induction pre as [|d pre IH]; [reflexivity|].
  rewrite app_cons. simpl. exact IH.
Qed.

Lemma slice_to_app pre t : slice_to (pre +:+ t) (len pre) = Some pre.
Proof.
  unfold slice_to. rewrite len_app.
  pose proof (len_nonneg pre). pose proof (len_nonneg t).
  replace (0 <=? len pre) with true by (symmetry; apply Z.leb_le; lia).
  replace (len pre <=? len pre + len t) with true
    by (symmetry; apply Z.leb_le; lia).
  simpl. now rewrite take_app_len.
Qed.

Lemma slice_from_app pre c t :
  slice_from (pre +:+ String c t) (len pre + 1) = Some t.
Proof.
  unfold slice_from. rewrite len_app, len_cons.
  pose proof (len_nonneg pre). pose proof (len_nonneg t).
  replace (0 <=? len pre + 1) with true by (symmetry; apply Z.leb_le; lia).
  replace (len pre + 1 <=? len pre + (len t + 1)) with true
    by (symmetry; apply Z.leb_le; lia).
  simpl. f_equal. rewrite <- app_assoc_char.
  replace (len pre + 1) with (len (pre +:+ String c ""))
    by (rewrite len_app, len_cons; unfold len; simpl; lia).
  apply drop_app_len.
Qed.

Lemma occursb_spec c s : reflect (occurs c s) (occursb c s).
Proof.
  induction s as [|d s IH]; simpl.
  - constructor. apply occurs_empty.
  - destruct (Ascii.eqb_spec d c) as [->|Hd]; simpl.
    + constructor. apply occurs_cons. now left.
    + destruct IH as [Hs|Hs]; constructor; rewrite occurs_cons; tauto.
Qed.

Lemma occursb_false c s : occursb c s = false -> ~ occurs c s.
Proof. intros E H. destruct (occursb_spec c s); [discriminate | contradiction]. Qed.

Lemma occursb_true c s : occursb c s = true -> occurs c s.
Proof. intros E. destruct (occursb_spec c s); [assumption | discriminate]. Qed.

End GoStringFacts.

Import GoStringFacts.

(** ** Key naming: properties *)

Lemma parentBucketName_no_slash bucketName :
  ~ occurs "/" bucketName -> parentBucketName bucketName = Some bucketName.
Proof.
  intros H. unfold parentBucketName.
  now rewrite (Contains_char_false _ _ H).
Qed.

Lemma generateKeyName_no_slash bucketName fileName :
  ~ occurs "/" bucketName -> generateKeyName bucketName fileName = Some fileName.
Proof.
  intros H. unfold generateKeyName.
  now rewrite (Contains_char_false _ _ H).
Qed.

Lemma parentBucketName_split bucketName pre post :
  first_split "/" bucketName pre post -> parentBucketName bucketName = Some pre.
Proof.
  intros H. unfold parentBucketName.
  rewrite (Contains_char_true _ _ (first_split_occurs _ _ _ _ H)).
  cbv zeta. rewrite (Index_char_first_split _ _ _ _ H).
  destruct H as [-> _]. apply slice_to_app.
Qed.

Lemma generateKeyName_split bucketName fileName pre post :
  first_split "/" bucketName pre post ->
  generateKeyName bucketName fileName = Some (post +:+ "/" +:+ fileName).
Proof.
  intros H. unfold generateKeyName.
  rewrite (Contains_char_true _ _ (first_split_occurs _ _ _ _ H)).
  cbv zeta. rewrite (Index_char_first_split _ _ _ _ H).
  destruct H as [-> _]. now rewrite slice_from_app.
Qed.

(** Neither slice expression can panic. *)
Lemma parentBucketName_total bucketName :
  exists b, parentBucketName bucketName = Some b.
Proof.
  destruct (occurs_dec_split "/" bucketName) as [H | [pre [post H]]].
  - eexists. now apply parentBucketName_no_slash.
  - eexists. exact (parentBucketName_split _ _ _ H).
Qed.

Lemma generateKeyName_total bucketName fileName :
  exists k, generateKeyName bucketName fileName = Some k.
Proof.
  destruct (occurs_dec_split "/" bucketName) as [H | [pre [post H]]].
  - eexists. now apply generateKeyName_no_slash.
  - eexists. exact (generateKeyName_split _ _ _ _ H).
Qed.

Lemma resolve_no_slash bucketName fileName :
  ~ occurs "/" bucketName ->
  resolve bucketName fileName = Some (bucketName, fileName).
Proof.
  intros H. unfold resolve.
  now rewrite (parentBucketName_no_slash _ H), (generateKeyName_no_slash _ _ H).
Qed.

Lemma resolve_split bucketName fileName pre post :
  first_split "/" bucketName pre post ->
  resolve bucketName fileName = Some (pre, post +:+ "/" +:+ fileName).
Proof.
  intros H. unfold resolve.
  now rewrite (parentBucketName_split _ _ _ H), (generateKeyName_split _ _ _ _ H).
Qed.

Lemma resolve_total bucketName fileName :
  exists b k, resolve bucketName fileName = Some (b, k)
              /\ parentBucketName bucketName = Some b
              /\ generateKeyName bucketName fileName = Some k.
Proof.
  destruct (parentBucketName_total bucketName) as [b Hb].
  destruct (generateKeyName_total bucketName fileName) as [k Hk].
  exists b, k. unfold resolve. now rewrite Hb, Hk.
Qed.

(** C1.  For every non-empty bucket address and file name, key resolution
    yields exactly one result; when the address has no slash the bucket is
    the address and the key is the file name; when it has one, the bucket is
    the part before the first slash and the key is the part after the first
    slash, then a slash, then the file name; one of the two cases always
    applies; resolving A/B/C with x.dump gives bucket A and key
    B/C/x.dump. *)
Theorem resolve_first_slash (bucketAddress fileName : string) :
  bucketAddress <> "" -> fileName <> "" ->
  (exists! r, resolve bucketAddress fileName = Some r) /\
  (~ occurs "/" bucketAddress ->
   resolve bucketAddress fileName = Some (bucketAddress, fileName)) /\
  (forall pre post, first_split "/" bucketAddress pre post ->
   resolve bucketAddress fileName = Some (pre, post +:+ "/" +:+ fileName)) /\
  (~ occurs "/" bucketAddress \/
   exists pre post, first_split "/" bucketAddress pre post) /\
  resolve "A/B/C" "x.dump" = Some ("A", "B/C/x.dump").
Proof.
  intros _ _. split; [|split; [|split; [|split]]].
  - destruct (resolve_total bucketAddress fileName) as [b [k [H _]]].
    exists (b, k). split; [exact H|].
    intros r Hr. rewrite H in Hr. now injection Hr.
  - apply resolve_no_slash.
  - intros pre post. apply resolve_split.
  - apply occurs_dec_split.
  - reflexivity.
Qed.

Lemma resolve_first_slash_witness :
  resolve "demo/test/test2" "a.dump" = Some ("demo", "test/test2/a.dump").
Proof.
  assert (Ha : "demo/test/test2" <> "") by discriminate.
  assert (Hf : "a.dump" <> "") by discriminate.
  destruct (resolve_first_slash "demo/test/test2" "a.dump" Ha Hf)
    as [_ [_ [H _]]].
  apply (H "demo" "test/test2").
  split; [reflexivity | apply occursb_false; reflexivity].
Defined.

(** C2.  The classification is Multipart exactly for sizes of at least
    1073741824 bytes; 1073741824 itself is Multipart and 1073741823 is
    Direct. *)
Theorem classify_threshold (sizeBytes : Z) :
  (classify sizeBytes = Multipart <-> sizeBytes >= 1073741824) /\
  (classify sizeBytes = Direct <-> sizeBytes < 1073741824) /\
  classify 1073741824 = Multipart /\
  classify 1073741823 = Direct.
Proof.
  unfold classify. change (1024 * 1024 * 1024) with 1073741824.
  repeat split; try reflexivity;
    destruct (Z.leb_spec 1073741824 sizeBytes); intros; try lia;
    try reflexivity; try discriminate.
Qed.

(** C8.  Key resolution and size classification are functions of their
    arguments alone: equal inputs give equal outputs, and evaluating them in
    any two process states gives the same value and leaves each state as it
    was. *)
Theorem resolve_classify_pure
    (bucketAddress1 bucketAddress2 fileName1 fileName2 : string)
    (sizeBytes1 sizeBytes2 : Z) (w1 w2 : World) :
  bucketAddress1 = bucketAddress2 -> fileName1 = fileName2 ->
  sizeBytes1 = sizeBytes2 ->
  resolve bucketAddress1 fileName1 = resolve bucketAddress2 fileName2 /\
  classify sizeBytes1 = classify sizeBytes2 /\
  panics (resolve bucketAddress1 fileName1) w1
    = (resolve bucketAddress2 fileName2, w1) /\
  panics (resolve bucketAddress1 fileName1) w2
    = (resolve bucketAddress2 fileName2, w2) /\
  ret (classify sizeBytes1) w1 = (Some (classify sizeBytes2), w1) /\
  ret (classify sizeBytes1) w2 = (Some (classify sizeBytes2), w2).
Proof. intros -> -> ->. repeat split. Qed.

Lemma resolve_classify_pure_witness :
  resolve "demo/test" "a.dump" = resolve "demo/test" "a.dump" /\
  classify 2147483648 = classify 2147483648.
Proof.
  pose proof (resolve_classify_pure "demo/test" "demo/test" "a.dump" "a.dump"
                2147483648 2147483648 (mkWorld ∅ [] []) (mkWorld ∅ [] [])
                eq_refl eq_refl eq_refl) as [H1 [H2 _]].
  split; [exact H1 | exact H2].
Defined.

(** C9.  When the only slash of the bucket address is its last byte, the
    prefix is empty and the key is a slash followed by the file name, which
    differs from the file name alone. *)
Theorem trailing_slash_key (name fileName : string) :
  ~ occurs "/" name ->
  resolve (name +:+ "/") fileName = Some (name, "/" +:+ fileName) /\
  generateKeyName (name +:+ "/") fileName = Some ("/" +:+ fileName) /\
  generateKeyName (name +:+ "/") fileName <> Some fileName.
Proof.
  intros H.
  assert (Hs : first_split "/" (name +:+ "/") name "") by (split; [reflexivity | exact H]).
  split; [|split].
  - exact (resolve_split _ fileName _ _ Hs).
  - exact (generateKeyName_split _ fileName _ _ Hs).
  - rewrite (generateKeyName_split _ fileName _ _ Hs).
    intros E. injection E as E.
    apply (f_equal String.length) in E.
    change (S (String.length fileName) = String.length fileName) in E. lia.
Qed.

Lemma trailing_slash_key_witness :
  generateKeyName "demo/" "x.dump" = Some "/x.dump".
Proof.
  assert (H : ~ occurs "/" "demo") by (apply occursb_false; reflexivity).
  exact (proj1 (proj2 (trailing_slash_key "demo" "x.dump" H))).
Defined.
(** ** The upload dispatcher: properties *)

Section ClientProperties.

Context {rt : Runtime}.

(** [getS3Client] reads the environment and changes nothing. *)
Lemma getS3Client_run a w : exists c, getS3Client a w = (Some c, w).
Proof.
  unfold getS3Client, bind, os_Getenv, ret.
  destruct (negb _); eexists; reflexivity.
Qed.

Lemma getS3Client_environ a w w' c :
  environ w' = environ w ->
  getS3Client a w = (Some c, w) -> getS3Client a w' = (Some c, w').
Proof.
  unfold getS3Client, bind, os_Getenv, ret. intros ->.
  destruct (negb _); intros H; injection H as <-; reflexivity.
Qed.

End ClientProperties.

(** Unfold one layer of the monad and of the calls to the collaborators. *)
Ltac unfold_calls :=
  unfold IsFileBigger, os_Stat_Size, os_Open, file_Close, PutObject, Upload,
    ListObjectsV2, Credentials_Retrieve, os_Setenv, os_Getenv, defer, panics,
    bind, ret, record_event, Sprintf_s_slash_s, filePath_of in *.

(** Bring a trace built call by call into the form [t ++ [e1; ...; en]]. *)
Ltac flatten_trace := rewrite <- ?app_assoc; cbn [app].

(** Run [getS3Client] in a world whose environment is that of the world
    where [Hc] ran it. *)
Ltac run_getS3Client Hc :=
  match type of Hc with
  | getS3Client ?a ?w0 = (Some ?c, _) =>
      match goal with
      | |- context [getS3Client a ?w'] =>
          rewrite (getS3Client_environ a w0 w' c eq_refl Hc)
      end
  end.

Ltac simpl_world :=
  cbn [environ open_files trace is_Multipart fst snd uploader_client].

(** Two runs of [getS3Client] in one world give one client. *)
Ltac same_client Hc Hc' :=
  let E := fresh in
  pose proof Hc' as E; rewrite Hc in E; injection E as <-.

Section UploadProperties.

Context {rt : Runtime}.


Lemma part_size_GiB :
  int64_mul (int64_mul (int64_mul 1 1024) 1024) 1024 = GiB.
Proof. reflexivity. Qed.

Lemma resolve_inv bucketName fileName b k :
  resolve bucketName fileName = Some (b, k) ->
  parentBucketName bucketName = Some b /\
  generateKeyName bucketName fileName = Some k.
Proof.
  unfold resolve.
  destruct (parentBucketName bucketName), (generateKeyName bucketName fileName);
    intros H; try discriminate H.
  injection H as -> ->. now split.
Qed.

Lemma UploadFile_iteration_fails a bucketName fileName w err w' client parent :
  file_fails a bucketName fileName w err w' ->
  getS3Client a w = (Some client, w) ->
  parentBucketName bucketName = Some parent ->
  UploadFile_iteration a client (location_of w) bucketName parent fileName w
    = (Some (Some err), w').
Proof.
  intros Hf Hc Hp.
  destruct Hf as [err Hstat
                 | sizeBytes err Hstat Hopen
                 | sizeBytes file client' b k err Hstat Hsize Hopen Hc' Hr Hput
                 | sizeBytes file client' b k err Hstat Hsize Hopen Hc' Hr Hup];
    unfold UploadFile_iteration, UploadLargeObject.
  - unfold_calls. rewrite Hstat. reflexivity.
  - unfold_calls. rewrite Hstat.
    destruct (classify sizeBytes); simpl_world.
    + rewrite Hopen. flatten_trace. reflexivity.
    + run_getS3Client Hc. simpl_world. rewrite Hopen. flatten_trace.
      reflexivity.
  - same_client Hc Hc'. destruct (resolve_inv _ _ _ _ Hr) as [Hb Hk].
    assert (parent = b) as -> by congruence.
    unfold_calls. rewrite Hstat, Hsize. simpl_world. rewrite Hopen, Hk.
    simpl_world. flatten_trace. rewrite Hput. reflexivity.
  - same_client Hc Hc'. destruct (resolve_inv _ _ _ _ Hr) as [Hb Hk].
    assert (parent = b) as -> by congruence.
    unfold_calls. rewrite Hstat, Hsize. simpl_world.
    run_getS3Client Hc. simpl_world. rewrite Hopen, Hk.
    simpl_world. flatten_trace. unfold manager_NewUploader.
    simpl_world. rewrite part_size_GiB, Hup. simpl_world. flatten_trace.
    reflexivity.
Qed.

Lemma UploadFile_iteration_succeeds a bucketName fileName w w' client parent :
  file_succeeds a bucketName fileName w w' ->
  getS3Client a w = (Some client, w) ->
  parentBucketName bucketName = Some parent ->
  UploadFile_iteration a client (location_of w) bucketName parent fileName w
    = (Some None, w').
Proof.
  intros Hf Hc Hp.
  destruct Hf as [sizeBytes file client' b k Hstat Hsize Hopen Hc' Hr Hput
                 | sizeBytes file client' b k Hstat Hsize Hopen Hc' Hr Hup];
    unfold UploadFile_iteration, UploadLargeObject;
    same_client Hc Hc'; destruct (resolve_inv _ _ _ _ Hr) as [Hb Hk];
    assert (parent = b) as -> by congruence.
  - unfold_calls. rewrite Hstat, Hsize. simpl_world. rewrite Hopen, Hk.
    simpl_world. flatten_trace. rewrite Hput. simpl_world. flatten_trace.
    reflexivity.
  - unfold_calls. rewrite Hstat, Hsize. simpl_world.
    run_getS3Client Hc. simpl_world. rewrite Hopen, Hk.
    simpl_world. flatten_trace. unfold manager_NewUploader.
    simpl_world. rewrite part_size_GiB, Hup. simpl_world. flatten_trace.
    reflexivity.
Qed.

Lemma file_succeeds_environ a bucketName fileName w w' :
  file_succeeds a bucketName fileName w w' -> environ w' = environ w.
Proof. intros []; reflexivity. Qed.

Lemma files_succeed_environ a bucketName fileNames w w' :
  files_succeed a bucketName fileNames w w' -> environ w' = environ w.
Proof.
  induction 1 as [|fileName rest w w1 w2 H1 _ IH]; [reflexivity|].
  rewrite IH. exact (file_succeeds_environ _ _ _ _ _ H1).
Qed.

Lemma location_of_environ w w' :
  environ w' = environ w -> location_of w' = location_of w.
Proof. unfold location_of. now intros ->. Qed.

Lemma UploadFile_loop_succeeds a bucketName fileNames w w' client parent :
  files_succeed a bucketName fileNames w w' ->
  getS3Client a w = (Some client, w) ->
  parentBucketName bucketName = Some parent ->
  UploadFile_loop a client (location_of w) bucketName parent fileNames w
    = (Some None, w').
Proof.
  intros Hs. induction Hs as [w|fileName rest w w1 w2 H1 Hrest IH];
    intros Hc Hp; cbn [UploadFile_loop].
  - reflexivity.
  - unfold bind.
    rewrite (UploadFile_iteration_succeeds _ _ _ _ _ _ _ H1 Hc Hp).
    pose proof (file_succeeds_environ _ _ _ _ _ H1) as Henv.
    rewrite <- (location_of_environ _ _ Henv).
    apply IH; [|exact Hp].
    exact (getS3Client_environ _ _ _ _ Henv Hc).
Qed.

Lemma UploadFile_loop_fails a bucketName pre fileName post w w1 w2 err
    client parent :
  files_succeed a bucketName pre w w1 ->
  file_fails a bucketName fileName w1 err w2 ->
  getS3Client a w = (Some client, w) ->
  parentBucketName bucketName = Some parent ->
  UploadFile_loop a client (location_of w) bucketName parent
    (pre ++ fileName :: post) w
    = (Some (Some err), w2).
Proof.
  intros Hs. induction Hs as [w|f rest w w1 w1' H1 Hrest IH];
    intros Hf Hc Hp; cbn [UploadFile_loop app].
  - unfold bind.
    now rewrite (UploadFile_iteration_fails _ _ _ _ _ _ _ _ Hf Hc Hp).
  - unfold bind.
    rewrite (UploadFile_iteration_succeeds _ _ _ _ _ _ _ H1 Hc Hp).
    pose proof (file_succeeds_environ _ _ _ _ _ H1) as Henv.
    rewrite <- (location_of_environ _ _ Henv).
    apply IH; [exact Hf| |exact Hp].
    exact (getS3Client_environ _ _ _ _ Henv Hc).
Qed.

Lemma UploadFile_run a fileNames bucketName w :
  exists client parent,
    getS3Client a w = (Some client, w) /\
    parentBucketName bucketName = Some parent /\
    UploadFile a fileNames bucketName w
      = UploadFile_loop a client (location_of w) bucketName parent
          fileNames w.
Proof.
  destruct (getS3Client_run a w) as [client Hc].
  destruct (parentBucketName_total bucketName) as [parent Hp].
  exists client, parent. split; [exact Hc|]. split; [exact Hp|].
  unfold UploadFile. unfold bind at 1. rewrite Hc.
  unfold bind, panics, os_Getenv. rewrite Hp. reflexivity.
Qed.

(** Every attempt ends in one of the ways the two relations list. *)
Lemma attempt_cases a bucketName fileName w :
  (exists w', file_succeeds a bucketName fileName w w') \/
  (exists err w', file_fails a bucketName fileName w err w').
Proof.
  destruct (getS3Client_run a w) as [client Hc].
  destruct (resolve_total bucketName fileName) as [b [k [Hr _]]].
  destruct (stat_result oracle (trace w) (filePath_of w fileName))
    as [sizeBytes|err] eqn:Hstat.
  2: { right. eexists _, _. exact (stat_fails a bucketName fileName w err Hstat). }
  destruct (open_result oracle
              (trace w ++ [EvStat (filePath_of w fileName) (inl sizeBytes)])
              (filePath_of w fileName)) as [file|err] eqn:Hopen.
  2: { right. eexists _, _.
       exact (open_fails a bucketName fileName w sizeBytes err Hstat Hopen). }
  destruct (classify sizeBytes) eqn:Hsize.
  - destruct (put_result oracle
                (trace w ++ [EvStat (filePath_of w fileName) (inl sizeBytes);
                             EvOpen (filePath_of w fileName) (inl file)])
                client (mkPutInput b k file)) as [err|] eqn:Hput.
    + right. eexists _, _.
      exact (direct_upload_fails a bucketName fileName w sizeBytes file client
               b k err Hstat Hsize Hopen Hc Hr Hput).
    + left. eexists.
      exact (direct_upload_succeeds a bucketName fileName w sizeBytes file
               client b k Hstat Hsize Hopen Hc Hr Hput).
  - destruct (upload_result oracle
                (trace w ++ [EvStat (filePath_of w fileName) (inl sizeBytes);
                             EvOpen (filePath_of w fileName) (inl file)])
                (mkUploader client GiB) (mkPutInput b k file))
      as [err|] eqn:Hup.
    + right. eexists _, _.
      exact (multipart_upload_fails a bucketName fileName w sizeBytes file
               client b k err Hstat Hsize Hopen Hc Hr Hup).
    + left. eexists.
      exact (multipart_upload_succeeds a bucketName fileName w sizeBytes file
               client b k Hstat Hsize Hopen Hc Hr Hup).
Qed.

(** Every batch either succeeds file by file or has a first failing
    file. *)
Lemma batch_cases a bucketName fileNames w :
  (exists w', files_succeed a bucketName fileNames w w') \/
  (exists pre fileName post w1 err w2,
      fileNames = pre ++ fileName :: post /\
      files_succeed a bucketName pre w w1 /\
      file_fails a bucketName fileName w1 err w2).
Proof.
  revert w. induction fileNames as [|f rest IH]; intros w.
  - left. exists w. constructor.
  - destruct (attempt_cases a bucketName f w) as [[w1 H1] | [err [w1 H1]]].
    + destruct (IH w1) as [[w' Hrest]
                          | [pre [g [post [w2 [err [w3 [-> [Hpre Hg]]]]]]]]].
      * left. exists w'. econstructor; eassumption.
      * right. exists (f :: pre), g, post, w2, err, w3.
        split; [reflexivity|]. split; [|exact Hg].
        econstructor; eassumption.
    + right. exists [], f, rest, w, err, w1.
      split; [reflexivity|]. split; [constructor | exact H1].
Qed.

Lemma file_succeeds_trace a bucketName fileName w w' :
  file_succeeds a bucketName fileName w w' ->
  exists calls, trace w' = trace w ++ calls.
Proof. intros []; eexists; reflexivity. Qed.


Lemma files_succeed_trace a bucketName fileNames w w' :
  files_succeed a bucketName fileNames w w' ->
  exists calls, trace w' = trace w ++ calls.
Proof.
  induction 1 as [w|fileName rest w w1 w2 H1 _ [later IH]].
  - exists []. now rewrite app_nil_r.
  - destruct (file_succeeds_trace _ _ _ _ _ H1) as [calls Hc].
    exists (calls ++ later). now rewrite IH, Hc, app_assoc.
Qed.

Lemma UploadFile_first_failure a bucketName pre fileName post w w1 err w2 :
  files_succeed a bucketName pre w w1 ->
  file_fails a bucketName fileName w1 err w2 ->
  UploadFile a (pre ++ fileName :: post) bucketName w = (Some (Some err), w2).
Proof.
  intros Hpre Hf.
  destruct (UploadFile_run a (pre ++ fileName :: post) bucketName w)
    as [client [parent [Hc [Hp ->]]]].
  exact (UploadFile_loop_fails _ _ _ _ _ _ _ _ _ _ _ Hpre Hf Hc Hp).
Qed.

Lemma UploadFile_all_succeed a bucketName fileNames w w' :
  files_succeed a bucketName fileNames w w' ->
  UploadFile a fileNames bucketName w = (Some None, w').
Proof.
  intros Hs.
  destruct (UploadFile_run a fileNames bucketName w)
    as [client [parent [Hc [Hp ->]]]].
  exact (UploadFile_loop_succeeds _ _ _ _ _ _ _ Hs Hc Hp).
Qed.

(** C3.  The batch is fail-fast.  When the files before one succeed and
    that one fails, whether at stat, at open or at upload, direct or
    multipart, [UploadFile] returns the error of that failure in the world
    the failure left, whatever files come after it, which are therefore not
    attempted; when every file succeeds it returns no error; and every
    batch is in one of these two situations. *)
Theorem UploadFile_fail_fast a fileNames bucketName w :
  (forall pre fileName post w1 err w2,
      fileNames = pre ++ fileName :: post ->
      files_succeed a bucketName pre w w1 ->
      file_fails a bucketName fileName w1 err w2 ->
      UploadFile a fileNames bucketName w = (Some (Some err), w2) /\
      UploadFile a (pre ++ [fileName]) bucketName w = (Some (Some err), w2)) /\
  (forall w',
      files_succeed a bucketName fileNames w w' ->
      UploadFile a fileNames bucketName w = (Some None, w')) /\
  ((exists w', files_succeed a bucketName fileNames w w') \/
   (exists pre fileName post w1 err w2,
       fileNames = pre ++ fileName :: post /\
       files_succeed a bucketName pre w w1 /\
       file_fails a bucketName fileName w1 err w2)).
Proof.
  split; [|split].
  - intros pre fileName post w1 err w2 -> Hpre Hf.
    split; exact (UploadFile_first_failure _ _ _ _ _ _ _ _ _ Hpre Hf).
  - intros w'. apply UploadFile_all_succeed.
  - apply batch_cases.
Qed.

(** *** The descriptor of the file being uploaded *)

Lemma release_not_In f fs : ~ In f (release f fs).
Proof.
  unfold release. rewrite filter_In. intros [_ H].
  now rewrite Nat.eqb_refl in H.
Qed.

(** A successful attempt closes the descriptor it opened. *)
Lemma file_succeeds_closes a bucketName fileName w w' :
  file_succeeds a bucketName fileName w w' ->
  exists sizeBytes file,
    open_result oracle
      (trace w ++ [EvStat (filePath_of w fileName) (inl sizeBytes)])
      (filePath_of w fileName) = inl file /\
    ~ In file (open_files w').
Proof.
  intros [sizeBytes file client b k _ _ Hopen _ _ _
         | sizeBytes file client b k _ _ Hopen _ _ _];
    exists sizeBytes, file; (split; [exact Hopen | apply release_not_In]).
Qed.

(** [UploadLargeObject] closes the descriptor it opened however the upload
    ends. *)
Lemma UploadLargeObject_closes a fileName location bucketName parent w file :
  open_result oracle (trace w) (location +:+ "/" +:+ fileName) = inl file ->
  ~ In file
      (open_files
         (snd (UploadLargeObject a fileName location bucketName parent w))).
Proof.
  intros Hopen. destruct (getS3Client_run a w) as [client Hc].
  unfold UploadLargeObject. unfold bind at 1. rewrite Hc.
  unfold bind at 1. unfold os_Open, Sprintf_s_slash_s. rewrite Hopen.
  unfold defer.
  destruct (bind _ _ _) as [r w1]. cbn [snd file_Close open_files].
  apply release_not_In.
Qed.

(** The direct path returns the upload error with the descriptor still
    open and without a call to close it. *)
Lemma direct_upload_failure_keeps_file_open a bucketName fileName w
    sizeBytes file client b k err :
  stat_result oracle (trace w) (filePath_of w fileName) = inl sizeBytes ->
  classify sizeBytes = Direct ->
  open_result oracle
    (trace w ++ [EvStat (filePath_of w fileName) (inl sizeBytes)])
    (filePath_of w fileName) = inl file ->
  getS3Client a w = (Some client, w) ->
  resolve bucketName fileName = Some (b, k) ->
  put_result oracle
    (trace w ++ [EvStat (filePath_of w fileName) (inl sizeBytes);
                 EvOpen (filePath_of w fileName) (inl file)])
    client (mkPutInput b k file) = Some err ->
  exists err' w' calls,
    UploadFile a [fileName] bucketName w = (Some (Some err'), w') /\
    trace w' = trace w ++ calls /\
    In file (open_files w') /\
    ~ In (EvClose file) calls.
Proof.
  intros Hstat Hsize Hopen Hc Hr Hput.
  pose proof (direct_upload_fails a bucketName fileName w sizeBytes file client
                b k err Hstat Hsize Hopen Hc Hr Hput) as Hf.
  eexists _, _, _.
  split; [exact (UploadFile_first_failure a bucketName [] fileName [] w w _ _
                   (no_file a bucketName w) Hf)|].
  split; [reflexivity|]. split; [now left|].
  cbn [In]. intros [H | [H | [H | []]]]; discriminate H.
Qed.


End UploadProperties.

(** ** The connectivity check: properties *)

Section AccessProperties.

Context {rt : Runtime}.

(** The listing request of [CheckBucketAccess]. *)
Lemma CheckBucketAccess_run a bucketName w client input :
  getS3Client a w = (Some client, w) ->
  (~ occurs "/" bucketName /\ input = mkListInput (Some bucketName) None \/
   exists name prefix, first_split "/" bucketName name prefix /\
                       input = mkListInput (Some name) (Some prefix)) ->
  CheckBucketAccess a bucketName w =
    (Some match list_result oracle (trace w) client input with
          | inr err =>
              Some (errors_New
                ("Unable to connect to s3 bucket " +:+ bucketName +:+ " "
                 +:+ nl +:+ " Here's why: " +:+ Error err +:+ nl))
          | inl objects =>
              if Contains bucketName "/"
                 && (length (Contents objects) =? 0)%nat
              then Some (errors_New
                     ("s3 Bucket " +:+ bucketName +:+ " does not exist"))
              else None
          end,
     mkWorld (environ w) (open_files w)
       (trace w ++ [EvListObjectsV2 client input
                      (list_result oracle (trace w) client input)])).
Proof.
  intros Hc Hin. unfold CheckBucketAccess. unfold bind at 1. rewrite Hc.
  destruct Hin as [[Hno ->] | [name [prefix [Hs ->]]]].
  - rewrite (Contains_char_false _ _ Hno). unfold_calls.
    destruct (list_result oracle (trace w) client _) as [objects|err];
      reflexivity.
  - rewrite (Contains_char_true _ _ (first_split_occurs _ _ _ _ Hs)).
    rewrite (Index_char_first_split _ _ _ _ Hs).
    destruct Hs as [-> _]. unfold_calls.
    rewrite slice_to_app, slice_from_app.
    destruct (list_result oracle (trace w) client _) as [objects|err];
      [destruct (_ && _)|]; reflexivity.
Qed.

(** C4.  The check lists the bucket itself when the address has no slash,
    and the part before the first slash with the rest as prefix when it
    has one.  It succeeds exactly when the listing succeeds and, for an
    address with a slash, returns at least one object; a failed listing
    gives an error that carries the address and the cause; an empty
    listing under a prefix gives an error. *)
Theorem CheckBucketAccess_outcome a bucketName w :
  exists client input res,
    getS3Client a w = (Some client, w) /\
    (~ occurs "/" bucketName /\ input = mkListInput (Some bucketName) None \/
     exists name prefix, first_split "/" bucketName name prefix /\
                         input = mkListInput (Some name) (Some prefix)) /\
    CheckBucketAccess a bucketName w =
      (Some res,
       mkWorld (environ w) (open_files w)
         (trace w ++ [EvListObjectsV2 client input
                        (list_result oracle (trace w) client input)])) /\
    (res = None <->
     exists objects,
       list_result oracle (trace w) client input = inl objects /\
       (occurs "/" bucketName -> Contents objects <> [])) /\
    (forall err,
       list_result oracle (trace w) client input = inr err ->
       res = Some (errors_New
               ("Unable to connect to s3 bucket " +:+ bucketName +:+ " "
                +:+ nl +:+ " Here's why: " +:+ Error err +:+ nl))) /\
    (forall objects,
       list_result oracle (trace w) client input = inl objects ->
       occurs "/" bucketName -> Contents objects = [] ->
       res = Some (errors_New
               ("s3 Bucket " +:+ bucketName +:+ " does not exist"))).
Proof.
  destruct (getS3Client_run a w) as [client Hc].
  assert (Hin : exists input,
             ~ occurs "/" bucketName /\
             input = mkListInput (Some bucketName) None \/
             exists name prefix, first_split "/" bucketName name prefix /\
                                 input = mkListInput (Some name) (Some prefix)).
  { destruct (occurs_dec_split "/" bucketName) as [Hno | [name [prefix Hs]]].
    - eexists. left. split; [exact Hno | reflexivity].
    - eexists. right. exists name, prefix. split; [exact Hs | reflexivity]. }
  destruct Hin as [input Hin].
  exists client, input. eexists.
  split; [exact Hc|]. split; [exact Hin|].
  split; [exact (CheckBucketAccess_run a bucketName w client input Hc Hin)|].
  destruct (list_result oracle (trace w) client input) as [objects|err].
  - destruct (occursb_spec "/" bucketName) as [Hyes|Hno].
    + rewrite (Contains_char_true _ _ Hyes). cbn [andb].
      destruct (Contents objects) as [|x l] eqn:Hl; cbn [length Nat.eqb].
      * split; [|split].
        -- split; [discriminate|].
           intros [objects' [E H]]. injection E as <-.
           exfalso. now apply (H Hyes).
        -- discriminate.
        -- reflexivity.
      * split; [|split].
        -- split; [|reflexivity]. intros _. exists objects.
           split; [reflexivity|]. intros _. now rewrite Hl.
        -- discriminate.
        -- intros objects' E _ H. injection E as <-. congruence.
    + rewrite (Contains_char_false _ _ Hno). cbn [andb].
      split; [|split].
      * split; [|reflexivity]. intros _. exists objects.
        split; [reflexivity|]. intros H. contradiction.
      * discriminate.
      * intros objects' _ H. contradiction.
  - split; [|split].
    + split; [discriminate|]. intros [objects [E _]]. discriminate E.
    + intros err' E. now injection E as <-.
    + discriminate.
Qed.

End AccessProperties.

(** ** The credential export: properties *)

(** The conjuncts of the outcome of a failed export whose calls are
    [before] followed by the failing call. *)
Ltac export_failure before :=
  cbn [environ];
  split; [|split; [|split;
    [|intros ? ? ? ?; rewrite ?lookup_insert_ne by congruence; reflexivity]]];
  [ split; [discriminate|];
    let H := fresh "H" in
    intros H; exfalso;
    repeat (apply Forall_cons in H as [? H]);
    cbn [error_of] in *; congruence
  | intros ? E; injection E as <-; exists before; eexists;
    split; [reflexivity|]; split; [reflexivity|]; repeat constructor
  | discriminate ].

(** A list of calls given explicitly, split at a call that failed, has
    nothing after that call. *)
Ltac stops_at_failure :=
  let before := fresh "before" in
  let E := fresh "E" in
  let Herr := fresh "Herr" in
  intros before ? ? E Herr;
  repeat (destruct before as [|? before];
          [ injection E as <- <-; try reflexivity;
            exfalso; apply Herr; reflexivity
          | injection E as <- E ]);
  destruct before; discriminate E.


Section CredentialProperties.

Context {rt : Runtime}.

(** The five ways [GenerateEnvVariablesFromCredentials] can run. *)
Lemma GenerateEnvVariablesFromCredentials_run a w :
  let t0 := trace w in
  match retrieve_result oracle t0 with
  | inr err =>
      GenerateEnvVariablesFromCredentials a w =
        (Some (Some err),
         mkWorld (environ w) (open_files w) (t0 ++ [EvRetrieve (inr err)]))
  | inl creds =>
      let c0 := EvRetrieve (inl creds) in
      match setenv_result oracle (t0 ++ [c0])
              "AWS_ACCESS_KEY_ID" (AccessKeyID creds) with
      | Some err =>
          GenerateEnvVariablesFromCredentials a w =
            (Some (Some err),
             mkWorld (environ w) (open_files w)
               (t0 ++ [c0; EvSetenv "AWS_ACCESS_KEY_ID" (AccessKeyID creds)
                             (Some err)]))
      | None =>
          let c1 := EvSetenv "AWS_ACCESS_KEY_ID" (AccessKeyID creds) None in
          let env1 := <["AWS_ACCESS_KEY_ID" := AccessKeyID creds]> (environ w) in
          match setenv_result oracle (t0 ++ [c0; c1])
                  "AWS_SECRET_ACCESS_KEY" (SecretAccessKey creds) with
          | Some err =>
              GenerateEnvVariablesFromCredentials a w =
                (Some (Some err),
                 mkWorld env1 (open_files w)
                   (t0 ++ [c0; c1;
                           EvSetenv "AWS_SECRET_ACCESS_KEY"
                             (SecretAccessKey creds) (Some err)]))
          | None =>
              let c2 := EvSetenv "AWS_SECRET_ACCESS_KEY"
                          (SecretAccessKey creds) None in
              let env2 :=
                <["AWS_SECRET_ACCESS_KEY" := SecretAccessKey creds]> env1 in
              match setenv_result oracle (t0 ++ [c0; c1; c2])
                      "AWS_REGION" (Region (cfg a)) with
              | Some err =>
                  GenerateEnvVariablesFromCredentials a w =
                    (Some (Some err),
                     mkWorld env2 (open_files w)
                       (t0 ++ [c0; c1; c2;
                               EvSetenv "AWS_REGION" (Region (cfg a))
                                 (Some err)]))
              | None =>
                  GenerateEnvVariablesFromCredentials a w =
                    (Some None,
                     mkWorld (<["AWS_REGION" := Region (cfg a)]> env2)
                       (open_files w)
                       (t0 ++ [c0; c1; c2;
                               EvSetenv "AWS_REGION" (Region (cfg a)) None]))
              end
          end
      end
  end.
Proof.
  cbv zeta. unfold GenerateEnvVariablesFromCredentials. unfold_calls.
  destruct (retrieve_result oracle (trace w)) as [creds|err]; [|reflexivity].
  simpl_world.
  destruct (setenv_result oracle (trace w ++ [EvRetrieve (inl creds)]) _ _)
    as [err|] eqn:E1.
  { rewrite ?E1. flatten_trace. reflexivity. }
  rewrite ?E1. simpl_world. flatten_trace.
  destruct (setenv_result oracle (trace w ++ [_; _]) _ _) as [err|] eqn:E2.
  { rewrite ?E2. flatten_trace. reflexivity. }
  rewrite ?E2. simpl_world. flatten_trace.
  destruct (setenv_result oracle (trace w ++ [_; _; _]) _ _) as [err|] eqn:E3.
  { rewrite ?E3. flatten_trace. reflexivity. }
  rewrite ?E3. flatten_trace. reflexivity.
Qed.

(** C7.  The export makes its calls in one sequence and returns no error
    exactly when none of them failed; an error returned is that of the
    last call made, the only one that failed, be it the retrieval or a
    write; when it returns no error the calls are the retrieval and the
    three writes of access key, secret key and region, and the environment
    is the old one with these three variables set; no other variable is
    ever changed.  The two keys are read from the retrieved credentials,
    the region from the configuration of the client. *)
Theorem GenerateEnvVariablesFromCredentials_outcome a w :
  exists res w' calls,
    GenerateEnvVariablesFromCredentials a w = (Some res, w') /\
    trace w' = trace w ++ calls /\
    (res = None <-> Forall (fun c => error_of c = None) calls) /\
    (forall err, res = Some err ->
       exists before final,
         calls = before ++ [final] /\ error_of final = Some err /\
         Forall (fun c => error_of c = None) before) /\
    (res = None ->
       exists creds,
         calls = [EvRetrieve (inl creds);
                  EvSetenv "AWS_ACCESS_KEY_ID" (AccessKeyID creds) None;
                  EvSetenv "AWS_SECRET_ACCESS_KEY" (SecretAccessKey creds) None;
                  EvSetenv "AWS_REGION" (Region (cfg a)) None] /\
         environ w' =
           <["AWS_REGION" := Region (cfg a)]>
             (<["AWS_SECRET_ACCESS_KEY" := SecretAccessKey creds]>
                (<["AWS_ACCESS_KEY_ID" := AccessKeyID creds]> (environ w)))) /\
    (forall key : string,
       key <> "AWS_ACCESS_KEY_ID" -> key <> "AWS_SECRET_ACCESS_KEY" ->
       key <> "AWS_REGION" ->
       environ w' !! key = environ w !! key).
Proof.
  pose proof (GenerateEnvVariablesFromCredentials_run a w) as Hrun.
  cbv zeta in Hrun.
  destruct (retrieve_result oracle (trace w)) as [creds|err0].
  2: { eexists _, _, _. split; [exact Hrun|]. split; [reflexivity|].
       export_failure (@nil Event). }
  destruct (setenv_result oracle (trace w ++ [_]) _ _) as [err1|].
  { eexists _, _, _. split; [exact Hrun|]. split; [reflexivity|].
    export_failure [EvRetrieve (inl creds)]. }
  destruct (setenv_result oracle (trace w ++ [_; _]) _ _) as [err2|].
  { eexists _, _, _. split; [exact Hrun|]. split; [reflexivity|].
    export_failure [EvRetrieve (inl creds);
                    EvSetenv "AWS_ACCESS_KEY_ID" (AccessKeyID creds) None]. }
  destruct (setenv_result oracle (trace w ++ [_; _; _]) _ _) as [err3|].
  { eexists _, _, _. split; [exact Hrun|]. split; [reflexivity|].
    export_failure
      [EvRetrieve (inl creds);
       EvSetenv "AWS_ACCESS_KEY_ID" (AccessKeyID creds) None;
       EvSetenv "AWS_SECRET_ACCESS_KEY" (SecretAccessKey creds) None]. }
  eexists _, _, _. split; [exact Hrun|]. split; [reflexivity|].
  split; [|split; [|split]].
  - split; [|reflexivity]. intros _. repeat constructor.
  - discriminate.
  - intros _. exists creds. split; reflexivity.
  - intros key H1 H2 H3. cbn [environ].
    now rewrite !lookup_insert_ne by congruence.
Qed.

(** C10.  The writes are made in the order access key, secret key,
    region, and nothing is done after a call that failed; a write that
    failed leaves the earlier ones in place: when the secret key is
    rejected the access key stays set and the region is not written, and
    when the region is rejected both keys stay set. *)
Theorem GenerateEnvVariablesFromCredentials_write_order a w :
  (exists res w' calls,
      GenerateEnvVariablesFromCredentials a w = (Some res, w') /\
      trace w' = trace w ++ calls /\
      setenv_keys calls `prefix_of`
        ["AWS_ACCESS_KEY_ID"; "AWS_SECRET_ACCESS_KEY"; "AWS_REGION"] /\
      (forall before c after,
          calls = before ++ c :: after -> error_of c <> None -> after = [])) /\
  (forall creds err,
      retrieve_result oracle (trace w) = inl creds ->
      setenv_result oracle (trace w ++ [EvRetrieve (inl creds)])
        "AWS_ACCESS_KEY_ID" (AccessKeyID creds) = None ->
      setenv_result oracle
        (trace w ++ [EvRetrieve (inl creds);
                     EvSetenv "AWS_ACCESS_KEY_ID" (AccessKeyID creds) None])
        "AWS_SECRET_ACCESS_KEY" (SecretAccessKey creds) = Some err ->
      exists w',
        GenerateEnvVariablesFromCredentials a w = (Some (Some err), w') /\
        trace w' =
          trace w ++
          [EvRetrieve (inl creds);
           EvSetenv "AWS_ACCESS_KEY_ID" (AccessKeyID creds) None;
           EvSetenv "AWS_SECRET_ACCESS_KEY" (SecretAccessKey creds)
             (Some err)] /\
        environ w' = <["AWS_ACCESS_KEY_ID" := AccessKeyID creds]> (environ w) /\
        environ w' !! "AWS_ACCESS_KEY_ID" = Some (AccessKeyID creds)) /\
  (forall creds err,
      retrieve_result oracle (trace w) = inl creds ->
      setenv_result oracle (trace w ++ [EvRetrieve (inl creds)])
        "AWS_ACCESS_KEY_ID" (AccessKeyID creds) = None ->
      setenv_result oracle
        (trace w ++ [EvRetrieve (inl creds);
                     EvSetenv "AWS_ACCESS_KEY_ID" (AccessKeyID creds) None])
        "AWS_SECRET_ACCESS_KEY" (SecretAccessKey creds) = None ->
      setenv_result oracle
        (trace w ++ [EvRetrieve (inl creds);
                     EvSetenv "AWS_ACCESS_KEY_ID" (AccessKeyID creds) None;
                     EvSetenv "AWS_SECRET_ACCESS_KEY" (SecretAccessKey creds)
                       None])
        "AWS_REGION" (Region (cfg a)) = Some err ->
      exists w',
        GenerateEnvVariablesFromCredentials a w = (Some (Some err), w') /\
        environ w' =
          <["AWS_SECRET_ACCESS_KEY" := SecretAccessKey creds]>
            (<["AWS_ACCESS_KEY_ID" := AccessKeyID creds]> (environ w)) /\
        environ w' !! "AWS_ACCESS_KEY_ID" = Some (AccessKeyID creds) /\
        environ w' !! "AWS_SECRET_ACCESS_KEY" = Some (SecretAccessKey creds)).
Proof.
  pose proof (GenerateEnvVariablesFromCredentials_run a w) as Hrun.
  cbv zeta in Hrun.
  split; [|split].
  - destruct (retrieve_result oracle (trace w)) as [creds|err0].
    2: { eexists _, _, _. split; [exact Hrun|]. split; [reflexivity|].
         split; [eexists; reflexivity | stops_at_failure]. }
    destruct (setenv_result oracle (trace w ++ [_]) _ _) as [err1|].
    { eexists _, _, _. split; [exact Hrun|]. split; [reflexivity|].
      split; [eexists; reflexivity | stops_at_failure]. }
    destruct (setenv_result oracle (trace w ++ [_; _]) _ _) as [err2|].
    { eexists _, _, _. split; [exact Hrun|]. split; [reflexivity|].
      split; [eexists; reflexivity | stops_at_failure]. }
    destruct (setenv_result oracle (trace w ++ [_; _; _]) _ _) as [err3|];
      (eexists _, _, _; split; [exact Hrun|]; split; [reflexivity|];
       split; [exists []; reflexivity | stops_at_failure]).
  - intros creds err Hr H1 H2. rewrite Hr, H1, H2 in Hrun.
    eexists. split; [exact Hrun|]. split; [reflexivity|].
    split; [reflexivity|]. cbn [environ]. apply lookup_insert_eq.
  - intros creds err Hr H1 H2 H3. rewrite Hr, H1, H2, H3 in Hrun.
    eexists. split; [exact Hrun|]. split; [reflexivity|]. cbn [environ].
    split.
    + rewrite lookup_insert_ne by discriminate. apply lookup_insert_eq.
    + apply lookup_insert_eq.
Qed.

End CredentialProperties.

(** Scenario of C3: the second of three files cannot be opened; the error is
    returned and the third file is not attempted. *)
Lemma UploadFile_fail_fast_witness :
  exists err w2,
    files_succeed (rt := Sample.runtime) Sample.client "demo/test"
      ["a.dump"] Sample.world
      (mkWorld (environ Sample.world) []
         [EvStat "/backups/a.dump" (inl 10);
          EvOpen "/backups/a.dump" (inl 1%nat);
          EvPutObject Sample.plain_s3 (mkPutInput "demo" "test/a.dump" 1%nat)
            None;
          EvClose 1%nat]) /\
    UploadFile (rt := Sample.runtime) Sample.client
      ["a.dump"; "b.dump"; "c.dump"] "demo/test" Sample.world
    = (Some (Some err), w2) /\
    err = errors_New
            ("Couldn't open file /backups/b.dump to upload. Here's why: no such file"
             +:+ nl) /\
    trace w2 =
      [EvStat "/backups/a.dump" (inl 10);
       EvOpen "/backups/a.dump" (inl 1%nat);
       EvPutObject Sample.plain_s3 (mkPutInput "demo" "test/a.dump" 1%nat) None;
       EvClose 1%nat;
       EvStat "/backups/b.dump" (inl 10);
       EvOpen "/backups/b.dump" (inr (errors_New "no such file"))].
Proof.
  assert (Ha : files_succeed (rt := Sample.runtime) Sample.client "demo/test"
                 ["a.dump"] Sample.world
                 (mkWorld (environ Sample.world) []
                    [EvStat "/backups/a.dump" (inl 10);
                     EvOpen "/backups/a.dump" (inl 1%nat);
                     EvPutObject Sample.plain_s3
                       (mkPutInput "demo" "test/a.dump" 1%nat) None;
                     EvClose 1%nat])).
  { eapply next_file; [|apply no_file].
    exact (direct_upload_succeeds (rt := Sample.runtime) Sample.client
             "demo/test" "a.dump" Sample.world 10 1%nat Sample.plain_s3
             "demo" "test/a.dump" eq_refl eq_refl eq_refl eq_refl eq_refl
             eq_refl). }
  destruct (UploadFile_fail_fast (rt := Sample.runtime) Sample.client
              ["a.dump"; "b.dump"; "c.dump"] "demo/test" Sample.world)
    as [Hfail _].
  match type of Ha with
  | files_succeed _ _ _ _ ?w1 =>
      destruct (Hfail ["a.dump"] "b.dump" ["c.dump"] w1 _ _ eq_refl Ha
                  (open_fails (rt := Sample.runtime) Sample.client "demo/test"
                     "b.dump" w1 10 (errors_New "no such file")
                     eq_refl eq_refl))
        as [Hrun _]
  end.
  eexists _, _. split; [exact Ha|]. split; [exact Hrun|].
  split; reflexivity.
Defined.

(** C5.  The descriptor opened for a file is not closed on every exit
    path.  For a 10-byte file whose [PutObject] is denied, [UploadFile]
    returns the upload error while the descriptor opened for the file is
    still among the open descriptors and no close was made.  The multipart
    path, in contrast, closes the descriptor when its upload is denied. *)
Theorem UploadFile_direct_failure_leaves_file_open :
  UploadFile (rt := Sample.runtime) Sample.client ["bad.dump"] "demo"
    Sample.world
  = (Some (Some (errors_New
       ("Couldn't upload file /backups/bad.dump to demo:bad.dump. Here's why: AccessDenied"
        +:+ nl))),
     mkWorld (environ Sample.world) [1%nat]
       [EvStat "/backups/bad.dump" (inl 10);
        EvOpen "/backups/bad.dump" (inl 1%nat);
        EvPutObject Sample.plain_s3 (mkPutInput "demo" "bad.dump" 1%nat)
          (Some (errors_New "AccessDenied"))]) /\
  UploadFile (rt := Sample.runtime) Sample.client ["big.dump"] "denied"
    Sample.world
  = (Some (Some (errors_New
       ("Couldn't upload large file /backups/big.dump to denied:big.dump. Here's why: AccessDenied"
        +:+ nl))),
     mkWorld (environ Sample.world) []
       [EvStat "/backups/big.dump" (inl 2147483648);
        EvOpen "/backups/big.dump" (inl 1%nat);
        EvUpload (mkUploader Sample.plain_s3 1073741824)
          (mkPutInput "denied" "big.dump" 1%nat)
          (Some (errors_New "AccessDenied"));
        EvClose 1%nat]).
Proof. split; vm_compute; reflexivity. Qed.


(** Scenario of C4: an address with a prefix under which nothing is listed
    is reported as absent, while the bare bucket with an empty listing is
    reachable. *)
Lemma CheckBucketAccess_outcome_witness :
  fst (CheckBucketAccess (rt := Sample.runtime) Sample.client "demo/empty"
         Sample.world)
  = Some (Some (errors_New "s3 Bucket demo/empty does not exist")).
Proof.
  destruct (CheckBucketAccess_outcome (rt := Sample.runtime) Sample.client
              "demo/empty" Sample.world)
    as [client [input [res [Hc [Hin [Hrun [_ [_ Hempty]]]]]]]].
  assert (Hslash : occurs "/" "demo/empty") by (apply occursb_true; reflexivity).
  assert (Ec : getS3Client (rt := Sample.runtime) Sample.client Sample.world
               = (Some Sample.plain_s3, Sample.world))
    by (vm_compute; reflexivity).
  rewrite Ec in Hc. injection Hc as <-.
  destruct Hin as [[Hno _] | [name [prefix [Hs ->]]]]; [contradiction|].
  assert (Hs' : first_split "/" "demo/empty" "demo" "empty")
    by (split; [reflexivity | apply occursb_false; reflexivity]).
  destruct (first_split_unique _ _ _ _ _ _ Hs Hs') as [-> ->].
  rewrite Hrun. cbn [fst]. f_equal.
  exact (Hempty (mkListOutput []) eq_refl Hslash eq_refl).
Defined.

(** Scenario of C7: with usable credentials and an environment store that
    accepts them, the export returns no error and the three variables are
    set. *)
Lemma GenerateEnvVariablesFromCredentials_outcome_witness :
  exists w',
    GenerateEnvVariablesFromCredentials (rt := Sample.runtime) Sample.client
      Sample.world = (Some None, w') /\
    environ w' =
      <["AWS_REGION" := "eu-west-1"]>
        (<["AWS_SECRET_ACCESS_KEY" := "s3cr3t"]>
           (<["AWS_ACCESS_KEY_ID" := "AKIAEXAMPLE"]> (environ Sample.world))).
Proof.
  destruct (GenerateEnvVariablesFromCredentials_outcome (rt := Sample.runtime)
              Sample.client Sample.world)
    as [res [w' [calls [Hrun [Ht [Hiff [_ [Hok _]]]]]]]].
  assert (E : fst (GenerateEnvVariablesFromCredentials (rt := Sample.runtime)
                     Sample.client Sample.world) = Some None)
    by (vm_compute; reflexivity).
  rewrite Hrun in E. cbn [fst] in E. injection E as ->.
  exists w'. split; [exact Hrun|].
  destruct (Hok eq_refl) as [creds [Hcalls Henv]].
  rewrite Hcalls in Ht.
  assert (E : trace w' = trace (snd (GenerateEnvVariablesFromCredentials
                                       (rt := Sample.runtime) Sample.client
                                       Sample.world)))
    by (now rewrite Hrun).
  rewrite Ht in E. vm_compute in E. injection E as E.
  rewrite Henv. subst creds. reflexivity.
Defined.

(** Scenario of C10: the secret key has a NUL byte and is rejected; the
    access key written before it stays in the environment. *)
Lemma GenerateEnvVariablesFromCredentials_write_order_witness :
  exists w',
    GenerateEnvVariablesFromCredentials (rt := Sample.runtime) Sample.client
      Sample.world_checked
    = (Some (Some (errors_New "setenv: invalid argument")), w') /\
    environ w' !! "AWS_ACCESS_KEY_ID" = Some "AKIAROTATED" /\
    environ w' !! "AWS_SECRET_ACCESS_KEY" = None /\
    environ w' !! "AWS_REGION" = None.
Proof.
  destruct (GenerateEnvVariablesFromCredentials_write_order
              (rt := Sample.runtime) Sample.client Sample.world_checked)
    as [_ [Hsecret _]].
  destruct (Hsecret (mkCredentials "AKIAROTATED" (String "000"%char "x"))
              (errors_New "setenv: invalid argument") eq_refl eq_refl eq_refl)
    as [w' [Hrun [_ [Henv Hkey]]]].
  exists w'. split; [exact Hrun|]. split; [exact Hkey|].
  rewrite Henv. split; reflexivity.
Defined.

(** ** Key naming: further properties *)

Lemma string_app_assoc (s t u : string) : (s +:+ t) +:+ u = s +:+ t +:+ u.
Proof.
  induction s as [|c s IH]; [reflexivity|].
  now rewrite !app_cons, IH.
Qed.

Lemma string_app_nil_r (s : string) : s +:+ "" = s.
Proof.
  induction s as [|c s IH]; [reflexivity|].
  now rewrite app_cons, IH.
Qed.

(** X1.  Joining the bucket and the key of a resolution with a slash gives
    the bucket address joined with the file name by a slash: resolution only
    moves the place where the path is cut. *)
Theorem resolve_rejoin (bucketName fileName : string) :
  exists b k,
    resolve bucketName fileName = Some (b, k) /\
    b +:+ "/" +:+ k = bucketName +:+ "/" +:+ fileName.
Proof.
  destruct (occurs_dec_split "/" bucketName) as [Hno | [pre [post Hs]]].
  - exists bucketName, fileName. split; [|reflexivity].
    now apply resolve_no_slash.
  - exists pre, (post +:+ "/" +:+ fileName).
    split; [exact (resolve_split _ _ _ _ Hs)|].
    destruct Hs as [-> _].
    now rewrite string_app_assoc, app_cons.
Qed.

(** X2.  Under one bucket address two different file names never get the
    same object key, and the key ends with the file name. *)
Theorem generateKeyName_injective (bucketName fileName1 fileName2 : string) :
  fileName1 <> fileName2 ->
  generateKeyName bucketName fileName1 <> generateKeyName bucketName fileName2 /\
  exists dir, generateKeyName bucketName fileName1 = Some (dir +:+ fileName1).
Proof.
  intros Hne.
  destruct (occurs_dec_split "/" bucketName) as [Hno | [pre [post Hs]]].
  - rewrite !(generateKeyName_no_slash _ _ Hno). split.
    + intros E. injection E as E. contradiction.
    + now exists "".
  - rewrite !(generateKeyName_split _ _ _ _ Hs). split.
    + intros E. injection E as E.
      apply String.app_inj in E. apply (String.app_inj "/") in E.
      contradiction.
    + exists (post +:+ "/"). now rewrite string_app_assoc.
Qed.

Lemma generateKeyName_injective_witness :
  generateKeyName "demo/test/test2" "a.dump"
  <> generateKeyName "demo/test/test2" "b.dump".
Proof.
  assert (H : "a.dump" <> "b.dump") by discriminate.
  exact (proj1 (generateKeyName_injective "demo/test/test2" "a.dump" "b.dump" H)).
Defined.

(** X3.  The bucket that requests are addressed to never contains a slash
    and is an initial part of the bucket address. *)
Theorem parentBucketName_slash_free (bucketName : string) :
  exists b rest,
    parentBucketName bucketName = Some b /\
    ~ occurs "/" b /\
    bucketName = b +:+ rest.
Proof.
  destruct (occurs_dec_split "/" bucketName) as [Hno | [pre [post Hs]]].
  - exists bucketName, "". split; [now apply parentBucketName_no_slash|].
    split; [exact Hno | now rewrite string_app_nil_r].
  - exists pre, (String "/" post).
    split; [exact (parentBucketName_split _ _ _ Hs)|].
    destruct Hs as [-> Hpre]. now split.
Qed.

(** X4.  The bucket of a request is the empty string exactly when the
    bucket address is empty or begins with a slash; the key then is the rest
    of the address, a slash and the file name. *)
Theorem parentBucketName_empty_iff (bucketName : string) :
  (parentBucketName bucketName = Some "" <->
   bucketName = "" \/ exists rest, bucketName = "/" +:+ rest) /\
  (forall rest fileName,
      resolve ("/" +:+ rest) fileName = Some ("", rest +:+ "/" +:+ fileName)).
Proof.
  split.
  - split.
    + intros H.
      destruct (occurs_dec_split "/" bucketName) as [Hno | [pre [post Hs]]].
      * rewrite (parentBucketName_no_slash _ Hno) in H. injection H as ->.
        now left.
      * rewrite (parentBucketName_split _ _ _ Hs) in H. injection H as ->.
        right. exists post. now destruct Hs as [-> _].
    + intros [-> | [rest ->]]; [reflexivity|].
      apply (parentBucketName_split _ "" rest).
      split; [reflexivity | apply occurs_empty].
  - intros rest fileName. apply (resolve_split _ fileName "" rest).
    split; [reflexivity | apply occurs_empty].
Qed.

(** ** The upload dispatcher: properties of whole runs *)

Section BatchOutcome.

Context {rt : Runtime}.

Lemma file_fails_environ a bucketName fileName w err w' :
  file_fails a bucketName fileName w err w' -> environ w' = environ w.
Proof. intros []; reflexivity. Qed.

Lemma files_succeed_app a bucketName xs ys w w1 w2 :
  files_succeed a bucketName xs w w1 ->
  files_succeed a bucketName ys w1 w2 ->
  files_succeed a bucketName (xs ++ ys) w w2.
Proof.
  induction 1 as [w|fileName rest w w1 w1' H1 _ IH]; intros Hys.
  - exact Hys.
  - cbn [app]. econstructor; [exact H1 | exact (IH Hys)].
Qed.

(** Every run of [UploadFile] is the success of all files or the failure
    of a first one. *)
Lemma UploadFile_outcome a fileNames bucketName w :
  (exists w',
      files_succeed a bucketName fileNames w w' /\
      UploadFile a fileNames bucketName w = (Some None, w')) \/
  (exists pre fileName post w1 err w2,
      fileNames = pre ++ fileName :: post /\
      files_succeed a bucketName pre w w1 /\
      file_fails a bucketName fileName w1 err w2 /\
      UploadFile a fileNames bucketName w = (Some (Some err), w2)).
Proof.
  destruct (batch_cases a bucketName fileNames w)
    as [[w' Hs] | [pre [f [post [w1 [err [w2 [-> [Hpre Hf]]]]]]]]].
  - left. exists w'. split; [exact Hs | now apply UploadFile_all_succeed].
  - right. exists pre, f, post, w1, err, w2.
    repeat split; try assumption.
    exact (UploadFile_first_failure _ _ _ _ _ _ _ _ _ Hpre Hf).
Qed.

(** X5.  A batch may be cut in two: uploading [xs ++ ys] is uploading
    [xs] and, when that returns no error, uploading [ys] from the world it
    left; when [xs] returns an error, that is the result and [ys] is not
    touched.  The empty batch returns no error and does nothing. *)
Theorem UploadFile_app a xs ys bucketName w :
  UploadFile a (xs ++ ys) bucketName w =
    match UploadFile a xs bucketName w with
    | (Some None, w1) => UploadFile a ys bucketName w1
    | r => r
    end /\
  UploadFile a [] bucketName w = (Some None, w).
Proof.
  split.
  - destruct (UploadFile_outcome a xs bucketName w)
      as [[w1 [Hxs ->]] | [pre [f [post [w1 [err [w2 [-> [Hpre [Hf ->]]]]]]]]]].
    + destruct (UploadFile_outcome a ys bucketName w1)
        as [[w2 [Hys ->]] | [pre [f [post [w2 [err [w3 [-> [Hpre [Hf ->]]]]]]]]]].
      * apply UploadFile_all_succeed.
        exact (files_succeed_app _ _ _ _ _ _ _ Hxs Hys).
      * rewrite (app_assoc xs pre (f :: post)).
        apply (UploadFile_first_failure a bucketName (xs ++ pre) f post w w2);
          [|exact Hf].
        exact (files_succeed_app _ _ _ _ _ _ _ Hxs Hpre).
    + rewrite <- (app_assoc pre (f :: post) ys). cbn [app].
      exact (UploadFile_first_failure _ _ _ _ _ _ _ _ _ Hpre Hf).
  - apply UploadFile_all_succeed. constructor.
Qed.

(** *** Properties that every call of a run has *)

Section CallsInvariant.

Variables (a : awsClient) (bucketName : string) (env0 : gmap string string).

(** [R] holds of the file names, [Q] of the calls. *)
Variable R : string -> Prop.
Variable Q : Event -> Prop.

Hypothesis succeeds_calls :
  forall fileName w w',
    R fileName -> environ w = env0 ->
    file_succeeds a bucketName fileName w w' ->
    exists calls, trace w' = trace w ++ calls /\ Forall Q calls.

Hypothesis fails_calls :
  forall fileName w err w',
    R fileName -> environ w = env0 ->
    file_fails a bucketName fileName w err w' ->
    exists calls, trace w' = trace w ++ calls /\ Forall Q calls.

Lemma files_succeed_calls fileNames w w' :
  Forall R fileNames -> environ w = env0 ->
  files_succeed a bucketName fileNames w w' ->
  exists calls, trace w' = trace w ++ calls /\ Forall Q calls.
Proof.
  intros HR Henv Hs. revert HR Henv.
  induction Hs as [w|fileName rest w w1 w2 H1 _ IH]; intros HR Henv.
  - exists []. split; [now rewrite app_nil_r | constructor].
  - apply Forall_cons in HR as [Hf HR].
    destruct (succeeds_calls _ _ _ Hf Henv H1) as [c1 [E1 Q1]].
    destruct (IH HR) as [c2 [E2 Q2]].
    { rewrite <- Henv. exact (file_succeeds_environ _ _ _ _ _ H1). }
    exists (c1 ++ c2). split; [now rewrite E2, E1, app_assoc|].
    apply Forall_app. now split.
Qed.

Lemma UploadFile_calls fileNames w :
  Forall R fileNames -> environ w = env0 ->
  exists res w' calls,
    UploadFile a fileNames bucketName w = (Some res, w') /\
    trace w' = trace w ++ calls /\
    environ w' = environ w /\
    Forall Q calls.
Proof.
  intros HR Henv.
  destruct (UploadFile_outcome a fileNames bucketName w)
    as [[w' [Hs Hrun]] | [pre [f [post [w1 [err [w2 [-> [Hpre [Hf Hrun]]]]]]]]]].
  - destruct (files_succeed_calls _ _ _ HR Henv Hs) as [calls [E HQ]].
    exists None, w', calls. split; [exact Hrun|]. split; [exact E|].
    split; [exact (files_succeed_environ _ _ _ _ _ Hs) | exact HQ].
  - apply Forall_app in HR as [HRpre HRf].
    apply Forall_cons in HRf as [HRf _].
    destruct (files_succeed_calls _ _ _ HRpre Henv Hpre) as [c1 [E1 Q1]].
    pose proof (files_succeed_environ _ _ _ _ _ Hpre) as Henv1.
    destruct (fails_calls f w1 err w2 HRf) as [c2 [E2 Q2]];
      [congruence | exact Hf |].
    exists (Some err), w2, (c1 ++ c2). split; [exact Hrun|].
    split; [now rewrite E2, E1, app_assoc|].
    split; [rewrite <- Henv1; exact (file_fails_environ _ _ _ _ _ _ Hf)|].
    apply Forall_app. now split.
Qed.

End CallsInvariant.

(** X6.  [UploadFile] never changes the environment, and the calls it
    makes are stats, opens, closes and upload requests only: it lists
    nothing, retrieves no credentials and writes no variable. *)
Theorem UploadFile_only_uploads a fileNames bucketName w :
  exists res w' calls,
    UploadFile a fileNames bucketName w = (Some res, w') /\
    trace w' = trace w ++ calls /\
    environ w' = environ w /\
    Forall (fun c => is_upload_call c = true) calls.
Proof.
  apply (UploadFile_calls a bucketName (environ w) (fun _ => True)).
  - intros fileName w0 w' _ _ []; eexists; (split; [reflexivity|]);
      repeat constructor.
  - intros fileName w0 err w' _ _ []; eexists; (split; [reflexivity|]);
      repeat constructor.
  - apply Forall_forall. intros; exact I.
  - reflexivity.
Qed.

(** X7.  All upload requests of a run are made with the one client that
    [getS3Client] gives in the starting world and to the one bucket of the
    address, and every multipart request has parts of 1073741824 bytes. *)
Theorem UploadFile_one_client_one_bucket a fileNames bucketName w :
  exists client bucket res w' calls,
    getS3Client a w = (Some client, w) /\
    parentBucketName bucketName = Some bucket /\
    UploadFile a fileNames bucketName w = (Some res, w') /\
    trace w' = trace w ++ calls /\
    Forall (request_to client bucket) calls /\
    GiB = 1073741824.
Proof.
  destruct (getS3Client_run a w) as [client Hc].
  destruct (parentBucketName_total bucketName) as [bucket Hb].
  destruct (UploadFile_calls a bucketName (environ w) (fun _ => True)
              (request_to client bucket)) with (fileNames := fileNames) (w := w)
    as [res [w' [calls [Hrun [Ht [_ HQ]]]]]].
  - intros fileName w0 w' _ Henv
      [sizeBytes file client' b k _ _ _ Hc' Hr _
      | sizeBytes file client' b k _ _ _ Hc' Hr _];
      rewrite (getS3Client_environ a w w0 client Henv Hc) in Hc';
      injection Hc' as <-;
      destruct (resolve_inv _ _ _ _ Hr) as [Hb' _];
      assert (b = bucket) as -> by congruence;
      eexists; (split; [reflexivity|]); repeat constructor.
  - intros fileName w0 err w' _ Henv
      [err0 _
      | sizeBytes err0 _ _
      | sizeBytes file client' b k err0 _ _ _ Hc' Hr _
      | sizeBytes file client' b k err0 _ _ _ Hc' Hr _];
      try (rewrite (getS3Client_environ a w w0 client Henv Hc) in Hc';
           injection Hc' as <-;
           destruct (resolve_inv _ _ _ _ Hr) as [Hb' _];
           assert (b = bucket) as -> by congruence);
      eexists; (split; [reflexivity|]); repeat constructor.
  - apply Forall_forall. intros; exact I.
  - reflexivity.
  - exists client, bucket, res, w', calls. repeat split; assumption.
Qed.

(** X8.  Every stat and every open of a run is made on the path of a file
    of the batch, which is the value of [LOCATION] in the starting world
    (empty when unset), a slash and the file name. *)
Theorem UploadFile_paths a fileNames bucketName w :
  exists res w' calls,
    UploadFile a fileNames bucketName w = (Some res, w') /\
    trace w' = trace w ++ calls /\
    Forall (fun c => forall path, path_of c = Some path ->
              exists fileName,
                In fileName fileNames /\
                path = default "" (environ w !! "LOCATION") +:+ "/" +:+ fileName)
      calls.
Proof.
  destruct (UploadFile_calls a bucketName (environ w)
              (fun fileName => In fileName fileNames)
              (fun c => forall path, path_of c = Some path ->
                 exists fileName,
                   In fileName fileNames /\
                   path = default "" (environ w !! "LOCATION") +:+ "/"
                          +:+ fileName))
    with (fileNames := fileNames) (w := w)
    as [res [w' [calls [Hrun [Ht [_ HQ]]]]]].
  - intros fileName w0 w' Hin Henv H.
    assert (Hp : filePath_of w0 fileName
                 = default "" (environ w !! "LOCATION") +:+ "/" +:+ fileName)
      by (unfold filePath_of, location_of; now rewrite Henv).
    destruct H; eexists; (split; [reflexivity|]);
      repeat constructor; intros path E; try discriminate E;
      injection E as <-; exists fileName; (split; [exact Hin | exact Hp]).
  - intros fileName w0 err w' Hin Henv H.
    assert (Hp : filePath_of w0 fileName
                 = default "" (environ w !! "LOCATION") +:+ "/" +:+ fileName)
      by (unfold filePath_of, location_of; now rewrite Henv).
    destruct H; eexists; (split; [reflexivity|]);
      repeat constructor; intros path E; try discriminate E;
      injection E as <-; exists fileName; (split; [exact Hin | exact Hp]).
  - apply Forall_forall. intros x Hx. now apply list_elem_of_In.
  - reflexivity.
  - exists res, w', calls. repeat split; assumption.
Qed.

End BatchOutcome.

(** ** The upload dispatcher: descriptors, requests and errors of a run *)

Section BatchAccounting.

Context {rt : Runtime}.

Lemma release_In f g fs : In f (release g fs) -> In f fs /\ f <> g.
Proof.
  unfold release. rewrite filter_In. intros [Hin Hne]. split; [exact Hin|].
  intros ->. now rewrite Nat.eqb_refl in Hne.
Qed.

Lemma release_opened_In f file fs : In f (release file (file :: fs)) -> In f fs.
Proof.
  intros H. apply release_In in H as [[<- | Hin] Hne];
    [now contradiction Hne | exact Hin].
Qed.

Lemma file_succeeds_open_files a bucketName fileName w w' :
  file_succeeds a bucketName fileName w w' ->
  incl (open_files w') (open_files w).
Proof. intros []; intros f; cbn [open_files]; apply release_opened_In. Qed.

Lemma files_succeed_open_files a bucketName fileNames w w' :
  files_succeed a bucketName fileNames w w' ->
  incl (open_files w') (open_files w).
Proof.
  induction 1 as [w|fileName rest w w1 w2 H1 _ IH].
  - apply incl_refl.
  - eapply incl_tran; [exact IH|].
    exact (file_succeeds_open_files _ _ _ _ _ H1).
Qed.

(** X9.  A run of [UploadFile] leaves open at most one descriptor that was
    not open before, and none when it returns no error. *)
Theorem UploadFile_descriptors a fileNames bucketName w :
  exists res w' leaked,
    UploadFile a fileNames bucketName w = (Some res, w') /\
    (length leaked <= 1)%nat /\
    (res = None -> leaked = []) /\
    (forall f, In f (open_files w') -> In f (open_files w) \/ In f leaked).
Proof.
  destruct (UploadFile_outcome a fileNames bucketName w)
    as [[w' [Hs Hrun]] | [pre [f [post [w1 [err [w2 [-> [Hpre [Hf Hrun]]]]]]]]]].
  - exists None, w', []. split; [exact Hrun|]. split; [cbn; lia|].
    split; [reflexivity|]. intros g Hg. left.
    exact (files_succeed_open_files _ _ _ _ _ Hs g Hg).
  - pose proof (files_succeed_open_files _ _ _ _ _ Hpre) as Hincl.
    destruct Hf as [err Hstat
                   | sizeBytes err Hstat Hopen
                   | sizeBytes file client b k err _ _ _ _ _ _
                   | sizeBytes file client b k err _ _ _ _ _ _].
    + eexists _, _, []. split; [exact Hrun|]. split; [cbn; lia|].
      split; [discriminate|]. intros g Hg. left. exact (Hincl g Hg).
    + eexists _, _, []. split; [exact Hrun|]. split; [cbn; lia|].
      split; [discriminate|]. intros g Hg. left. exact (Hincl g Hg).
    + eexists _, _, [file]. split; [exact Hrun|]. split; [cbn; lia|].
      split; [discriminate|]. cbn [open_files In].
      intros g [<- | Hg]; [right; now left | left; exact (Hincl g Hg)].
    + eexists _, _, []. split; [exact Hrun|]. split; [cbn; lia|].
      split; [discriminate|]. cbn [open_files]. intros g Hg. left.
      exact (Hincl g (release_opened_In _ _ _ Hg)).
Qed.





Lemma file_fails_cause a bucketName fileName w err w' :
  file_fails a bucketName fileName w err w' ->
  exists calls c cause,
    trace w' = trace w ++ calls /\
    In c calls /\ error_of c = Some cause /\
    substring_of (Error cause) (Error err).
Proof.
  intros [err0 _
         | sizeBytes err0 _ _
         | sizeBytes file client b k err0 _ _ _ _ _ _
         | sizeBytes file client b k err0 _ _ _ _ _ _].
  - eexists _, (EvStat _ (inr err0)), err0.
    split; [reflexivity|]. split; [now left|]. split; [reflexivity|].
    exists "", "". now rewrite string_app_nil_r.
  - eexists _, (EvOpen _ (inr err0)), err0.
    split; [reflexivity|]. split; [right; now left|]. split; [reflexivity|].
    exists ("Couldn't open "
            +:+ match classify sizeBytes with
                | Direct => "file "
                | Multipart => "large file "
                end
            +:+ filePath_of w fileName +:+ " to upload. Here's why: "), nl.
    cbn [Error]. now rewrite !string_app_assoc.
  - eexists _, (EvPutObject _ _ (Some err0)), err0.
    split; [reflexivity|]. split; [right; right; now left|].
    split; [reflexivity|].
    exists ("Couldn't upload file " +:+ filePath_of w fileName +:+ " to "
            +:+ bucketName +:+ ":" +:+ fileName +:+ ". Here's why: "), nl.
    cbn [Error]. now rewrite !string_app_assoc.
  - eexists _, (EvUpload _ _ (Some err0)), err0.
    split; [reflexivity|]. split; [right; right; now left|].
    split; [reflexivity|].
    exists ("Couldn't upload large file " +:+ filePath_of w fileName +:+ " to "
            +:+ bucketName +:+ ":" +:+ fileName +:+ ". Here's why: "), nl.
    cbn [Error]. now rewrite !string_app_assoc.
Qed.

(** X11.  When [UploadFile] returns an error, one of the calls of the run
    answered an error whose message is part of the returned message; when
    it returns no error, no stat, open or upload request of the run
    answered an error. *)
Theorem UploadFile_error_carries_cause a fileNames bucketName w :
  exists res w' calls,
    UploadFile a fileNames bucketName w = (Some res, w') /\
    trace w' = trace w ++ calls /\
    (res = None -> Forall (fun c => error_of c = None) calls) /\
    (forall err, res = Some err ->
       exists c cause,
         In c calls /\ error_of c = Some cause /\
         substring_of (Error cause) (Error err)).
Proof.
  destruct (UploadFile_outcome a fileNames bucketName w)
    as [[w' [Hs Hrun]] | [pre [f [post [w1 [err [w2 [-> [Hpre [Hf Hrun]]]]]]]]]].
  - destruct (files_succeed_calls a bucketName (environ w) (fun _ => True)
                (fun c => error_of c = None)) with (fileNames := fileNames)
                (w := w) (w' := w') as [calls [E HQ]].
    + intros fileName w0 w0' _ _ []; eexists; (split; [reflexivity|]);
        repeat constructor.
    + apply Forall_forall. intros; exact I.
    + reflexivity.
    + exact Hs.
    + exists None, w', calls. split; [exact Hrun|]. split; [exact E|].
      split; [intros _; exact HQ | discriminate].
  - destruct (files_succeed_trace _ _ _ _ _ Hpre) as [c1 E1].
    destruct (file_fails_cause _ _ _ _ _ _ Hf) as [c2 [c [cause [E2 [Hin [Hc Hsub]]]]]].
    exists (Some err), w2, (c1 ++ c2). split; [exact Hrun|].
    split; [now rewrite E2, E1, app_assoc|].
    split; [discriminate|].
    intros err' E. injection E as <-. exists c, cause.
    split; [apply in_or_app; now right|]. now split.
Qed.

(** X12.  [UploadLargeObject] returns with no descriptor open that was not
    open before, whether the open or the upload fails or both succeed, and
    with the environment as it was. *)
Theorem UploadLargeObject_no_new_descriptor a fileName location bucketName
    parent w :
  exists res w',
    UploadLargeObject a fileName location bucketName parent w = (Some res, w') /\
    incl (open_files w') (open_files w) /\
    environ w' = environ w.
Proof.
  destruct (getS3Client_run a w) as [client Hc].
  destruct (generateKeyName_total bucketName fileName) as [k Hk].
  unfold UploadLargeObject. unfold bind at 1. rewrite Hc.
  unfold_calls. rewrite Hk.
  destruct (open_result oracle (trace w) _) as [file|err]; simpl_world.
  - destruct (upload_result oracle _ _ _) as [err|]; simpl_world;
      eexists _, _; (split; [reflexivity|]); cbn [open_files environ];
      (split; [intros f; apply release_opened_In | reflexivity]).
  - eexists _, _. split; [reflexivity|]. split; [apply incl_refl | reflexivity].
Qed.

End BatchAccounting.

(** ** The client, the connectivity check and the export: further properties *)

Section ClientAndExport.

Context {rt : Runtime}.

(** The client depends on the value of [ENDPOINT] alone. *)
Lemma getS3Client_endpoint a w :
  getS3Client a w =
    (Some (if String.eqb (strings_TrimSpace (default "" (environ w !! "ENDPOINT"))) ""
           then s3_NewFromConfig (cfg a)
           else mkClient (cfg a) (Some (default "" (environ w !! "ENDPOINT")))
                  (Some resolverV2) true),
     w).
Proof.
  unfold getS3Client, bind, os_Getenv, ret.
  now destruct (String.eqb _ _).
Qed.

Lemma getS3Client_lookup a w w' :
  environ w' !! "ENDPOINT" = environ w !! "ENDPOINT" ->
  getS3Client a w' = (fst (getS3Client a w), w').
Proof. intros E. rewrite !getS3Client_endpoint, E. reflexivity. Qed.

(** X13.  The connectivity check and the upload agree on the target: the
    bucket that [CheckBucketAccess] lists is the bucket that uploads are
    addressed to, and the key of every file is the listed prefix, a slash
    and the file name, or the file name alone when no prefix is listed. *)
Theorem CheckBucketAccess_lists_upload_target a bucketName w :
  exists client input res,
    CheckBucketAccess a bucketName w =
      (Some res,
       mkWorld (environ w) (open_files w)
         (trace w ++ [EvListObjectsV2 client input
                        (list_result oracle (trace w) client input)])) /\
    list_Bucket input = parentBucketName bucketName /\
    forall fileName,
      generateKeyName bucketName fileName =
        Some match list_Prefix input with
             | Some prefix => prefix +:+ "/" +:+ fileName
             | None => fileName
             end.
Proof.
  destruct (getS3Client_run a w) as [client Hc].
  destruct (occurs_dec_split "/" bucketName) as [Hno | [name [prefix Hs]]].
  - exists client, (mkListInput (Some bucketName) None). eexists.
    split; [apply (CheckBucketAccess_run a bucketName w client _ Hc);
            left; now split|].
    cbn [list_Bucket list_Prefix].
    split; [symmetry; now apply parentBucketName_no_slash|].
    intros fileName. now apply generateKeyName_no_slash.
  - exists client, (mkListInput (Some name) (Some prefix)). eexists.
    split; [apply (CheckBucketAccess_run a bucketName w client _ Hc);
            right; exists name, prefix; now split|].
    cbn [list_Bucket list_Prefix].
    split; [symmetry; exact (parentBucketName_split _ _ _ Hs)|].
    intros fileName. exact (generateKeyName_split _ _ _ _ Hs).
Qed.

Lemma listing_input_cases bucketName :
  exists input,
    ~ occurs "/" bucketName /\ input = mkListInput (Some bucketName) None \/
    exists name prefix, first_split "/" bucketName name prefix /\
                        input = mkListInput (Some name) (Some prefix).
Proof.
  destruct (occurs_dec_split "/" bucketName) as [Hno | [name [prefix Hs]]].
  - eexists. left. split; [exact Hno | reflexivity].
  - eexists. right. exists name, prefix. split; [exact Hs | reflexivity].
Qed.

(** X14.  Given that trimming the empty string gives the empty string, as
    [strings.TrimSpace] does: when [ENDPOINT] is unset or empty, or holds a
    value that trims to nothing, [getS3Client] gives the default client,
    with no base endpoint and no path-style addressing; for any other value
    it gives a client with path-style addressing, the fallback resolver and
    that value, untrimmed, as base endpoint.  [getS3Client] changes nothing,
    and the listing of [CheckBucketAccess] is made with this client. *)
Theorem getS3Client_by_endpoint a bucketName w :
  strings_TrimSpace "" = "" ->
  exists client input res,
    getS3Client a w = (Some client, w) /\
    CheckBucketAccess a bucketName w =
      (Some res,
       mkWorld (environ w) (open_files w)
         (trace w ++ [EvListObjectsV2 client input
                        (list_result oracle (trace w) client input)])) /\
    (environ w !! "ENDPOINT" = None \/ environ w !! "ENDPOINT" = Some "" ->
     client = s3_NewFromConfig (cfg a) /\
     UsePathStyle client = false /\ BaseEndpoint client = None) /\
    (forall value,
        environ w !! "ENDPOINT" = Some value ->
        strings_TrimSpace value = "" ->
        client = s3_NewFromConfig (cfg a) /\
        UsePathStyle client = false /\ BaseEndpoint client = None) /\
    (forall value,
        environ w !! "ENDPOINT" = Some value ->
        strings_TrimSpace value <> "" ->
        client = mkClient (cfg a) (Some value) (Some resolverV2) true).
Proof.
  intros Hempty.
  destruct (listing_input_cases bucketName) as [input Hin].
  pose proof (getS3Client_endpoint a w) as Hc.
  eexists _, input, _. split; [exact Hc|].
  split; [exact (CheckBucketAccess_run a bucketName w _ input Hc Hin)|].
  split; [|split].
  - intros [E | E]; rewrite E; cbn [from_option id]; rewrite Hempty; cbn;
      repeat split.
  - intros value E Ht. rewrite E. cbn [from_option id]. rewrite Ht. cbn.
    repeat split.
  - intros value E Ht. rewrite E. cbn [from_option id].
    now destruct (String.eqb_spec (strings_TrimSpace value) "").
Qed.

(** X15.  The export of credentials changes neither [ENDPOINT] nor
    [LOCATION] nor the open descriptors, whatever it returns: the client
    and the directory of later uploads are those of before. *)
Theorem export_keeps_upload_settings a w :
  exists res w',
    GenerateEnvVariablesFromCredentials a w = (Some res, w') /\
    getS3Client a w' = (fst (getS3Client a w), w') /\
    location_of w' = location_of w /\
    open_files w' = open_files w.
Proof.
  pose proof (GenerateEnvVariablesFromCredentials_run a w) as Hrun.
  cbv zeta in Hrun.
  destruct (retrieve_result oracle (trace w)) as [creds|err0];
    [destruct (setenv_result oracle (trace w ++ [_]) _ _) as [err1|];
     [|destruct (setenv_result oracle (trace w ++ [_; _]) _ _) as [err2|];
       [|destruct (setenv_result oracle (trace w ++ [_; _; _]) _ _)
           as [err3|]]]|];
    (eexists _, _; split; [exact Hrun|];
     split; [apply getS3Client_lookup; cbn [environ];
             now rewrite ?lookup_insert_ne by discriminate|];
     split; [unfold location_of; cbn [environ];
             now rewrite ?lookup_insert_ne by discriminate
            | reflexivity]).
Qed.

(** X16.  After an export that returned no error, reading the three
    variables gives the access key and the secret key of the credentials
    retrieved and the region of the client's configuration. *)
Theorem export_read_back a w w' :
  GenerateEnvVariablesFromCredentials a w = (Some None, w') ->
  exists creds,
    retrieve_result oracle (trace w) = inl creds /\
    os_Getenv "AWS_ACCESS_KEY_ID" w' = (Some (AccessKeyID creds), w') /\
    os_Getenv "AWS_SECRET_ACCESS_KEY" w' = (Some (SecretAccessKey creds), w') /\
    os_Getenv "AWS_REGION" w' = (Some (Region (cfg a)), w').
Proof.
  intros H.
  pose proof (GenerateEnvVariablesFromCredentials_run a w) as Hrun.
  cbv zeta in Hrun.
  destruct (retrieve_result oracle (trace w)) as [creds|err0];
    [|rewrite Hrun in H; discriminate H].
  destruct (setenv_result oracle (trace w ++ [_]) _ _) as [err1|];
    [rewrite Hrun in H; discriminate H|].
  destruct (setenv_result oracle (trace w ++ [_; _]) _ _) as [err2|];
    [rewrite Hrun in H; discriminate H|].
  destruct (setenv_result oracle (trace w ++ [_; _; _]) _ _) as [err3|];
    [rewrite Hrun in H; discriminate H|].
  rewrite Hrun in H. injection H as <-.
  exists creds. split; [reflexivity|].
  unfold os_Getenv. cbn [environ].
  rewrite lookup_insert_eq.
  rewrite (lookup_insert_ne _ "AWS_REGION" "AWS_SECRET_ACCESS_KEY")
    by discriminate.
  rewrite lookup_insert_eq.
  rewrite (lookup_insert_ne _ "AWS_REGION" "AWS_ACCESS_KEY_ID") by discriminate.
  rewrite (lookup_insert_ne _ "AWS_SECRET_ACCESS_KEY" "AWS_ACCESS_KEY_ID")
    by discriminate.
  rewrite lookup_insert_eq. repeat split.
Qed.

(** X17.  For an address that is a bucket name followed by one slash, the
    check lists that bucket under the empty prefix and reports the address
    as absent when the listing is empty, although the same bucket without
    the slash would pass. *)
Theorem CheckBucketAccess_trailing_slash a name w :
  ~ occurs "/" name ->
  exists client,
    getS3Client a w = (Some client, w) /\
    CheckBucketAccess a (name +:+ "/") w =
      (Some match list_result oracle (trace w) client
                    (mkListInput (Some name) (Some "")) with
            | inr err =>
                Some (errors_New
                  ("Unable to connect to s3 bucket " +:+ (name +:+ "/") +:+ " "
                   +:+ nl +:+ " Here's why: " +:+ Error err +:+ nl))
            | inl objects =>
                match Contents objects with
                | [] => Some (errors_New
                          ("s3 Bucket " +:+ (name +:+ "/") +:+ " does not exist"))
                | _ :: _ => None
                end
            end,
       mkWorld (environ w) (open_files w)
         (trace w ++ [EvListObjectsV2 client (mkListInput (Some name) (Some ""))
                        (list_result oracle (trace w) client
                           (mkListInput (Some name) (Some "")))])) /\
    forall objects,
      list_result oracle (trace w) client (mkListInput (Some name) None)
        = inl objects ->
      fst (CheckBucketAccess a name w) = Some None.
Proof.
  intros Hno. destruct (getS3Client_run a w) as [client Hc].
  exists client. split; [exact Hc|].
  assert (Hs : first_split "/" (name +:+ "/") name "")
    by (split; [reflexivity | exact Hno]).
  split.
  - rewrite (CheckBucketAccess_run a (name +:+ "/") w client
               (mkListInput (Some name) (Some "")) Hc).
    + rewrite (Contains_char_true _ _ (first_split_occurs _ _ _ _ Hs)).
      destruct (list_result oracle (trace w) client _) as [objects|err];
        [|reflexivity].
      now destruct (Contents objects).
    + right. exists name, "". now split.
  - intros objects Hl.
    rewrite (CheckBucketAccess_run a name w client
               (mkListInput (Some name) None) Hc).
    + rewrite Hl, (Contains_char_false _ _ Hno). reflexivity.
    + left. now split.
Qed.

End ClientAndExport.

(** Scenario of X16: the export from the sample world returns no error and
    the access key read back is the one retrieved. *)
Lemma export_read_back_witness :
  fst (os_Getenv "AWS_ACCESS_KEY_ID"
         (snd (GenerateEnvVariablesFromCredentials (rt := Sample.runtime)
                 Sample.client Sample.world)))
  = Some "AKIAEXAMPLE".
Proof.
  assert (H : GenerateEnvVariablesFromCredentials (rt := Sample.runtime)
                Sample.client Sample.world
              = (Some None,
                 snd (GenerateEnvVariablesFromCredentials
                        (rt := Sample.runtime) Sample.client Sample.world)))
    by (vm_compute; reflexivity).
  destruct (export_read_back (rt := Sample.runtime) _ _ _ H)
    as [creds [Hr [Ha _]]].
  rewrite Ha. cbn [fst].
  vm_compute in Hr. injection Hr as <-. reflexivity.
Defined.

(** Scenario of X17: the empty bucket demo passes the check as [demo] and
    fails it as [demo/]. *)
Lemma CheckBucketAccess_trailing_slash_witness :
  fst (CheckBucketAccess (rt := Sample.runtime) Sample.client "demo/"
         Sample.world)
  = Some (Some (errors_New "s3 Bucket demo/ does not exist")) /\
  fst (CheckBucketAccess (rt := Sample.runtime) Sample.client "demo"
         Sample.world)
  = Some None.
Proof.
  assert (Hno : ~ occurs "/" "demo") by (apply occursb_false; reflexivity).
  destruct (CheckBucketAccess_trailing_slash (rt := Sample.runtime)
              Sample.client "demo" Sample.world Hno)
    as [client [Hc [Hrun Hbare]]].
  assert (Ec : getS3Client (rt := Sample.runtime) Sample.client Sample.world
               = (Some Sample.plain_s3, Sample.world))
    by (vm_compute; reflexivity).
  rewrite Ec in Hc. injection Hc as <-.
  split.
  - change ("demo/") with ("demo" +:+ "/"). rewrite Hrun. reflexivity.
  - exact (Hbare (mkListOutput []) eq_refl).
Defined.

(** Scenario of X14: in the sample world [ENDPOINT] is unset and the client
    is the default one. *)
Lemma getS3Client_by_endpoint_witness :
  getS3Client (rt := Sample.runtime) Sample.client Sample.world
  = (Some Sample.plain_s3, Sample.world).
Proof.
  destruct (getS3Client_by_endpoint (rt := Sample.runtime) Sample.client
              "demo" Sample.world eq_refl)
    as [client [input [res [Hc [_ [Hunset _]]]]]].
  destruct (Hunset (or_introl eq_refl)) as [-> _].
  exact Hc.
Defined.

(** Against C7 as worded: the value written to [AWS_REGION] is not taken
    from the credentials that were retrieved.  Two clients that differ only
    in the region of their configuration retrieve the same credentials in
    the same world, both exports return no error, and the regions written
    differ; so no function of the retrieved credentials gives the value
    written. *)
Lemma region_not_from_retrieved_credentials :
  retrieve_result Sample.collaborators (trace Sample.world)
  = inl (mkCredentials "AKIAEXAMPLE" "s3cr3t") /\
  (exists w1,
      GenerateEnvVariablesFromCredentials (rt := Sample.runtime)
        (mkAwsClient (mkConfig "eu-west-1")) Sample.world = (Some None, w1) /\
      environ w1 !! "AWS_REGION" = Some "eu-west-1") /\
  (exists w2,
      GenerateEnvVariablesFromCredentials (rt := Sample.runtime)
        (mkAwsClient (mkConfig "us-east-1")) Sample.world = (Some None, w2) /\
      environ w2 !! "AWS_REGION" = Some "us-east-1") /\
  ~ (exists region_of : Credentials -> string,
        forall a creds w',
          retrieve_result Sample.collaborators (trace Sample.world)
          = inl creds ->
          GenerateEnvVariablesFromCredentials (rt := Sample.runtime) a
            Sample.world = (Some None, w') ->
          environ w' !! "AWS_REGION" = Some (region_of creds)).
Proof.
  assert (H1 : exists w1,
             GenerateEnvVariablesFromCredentials (rt := Sample.runtime)
               (mkAwsClient (mkConfig "eu-west-1")) Sample.world
             = (Some None, w1) /\
             environ w1 !! "AWS_REGION" = Some "eu-west-1")
    by (eexists; split; vm_compute; reflexivity).
  assert (H2 : exists w2,
             GenerateEnvVariablesFromCredentials (rt := Sample.runtime)
               (mkAwsClient (mkConfig "us-east-1")) Sample.world
             = (Some None, w2) /\
             environ w2 !! "AWS_REGION" = Some "us-east-1")
    by (eexists; split; vm_compute; reflexivity).
  split; [reflexivity|]. split; [exact H1|]. split; [exact H2|].
  intros [region_of Hall].
  destruct H1 as [w1 [R1 E1]]. destruct H2 as [w2 [R2 E2]].
  pose proof (Hall _ _ _ eq_refl R1) as F1.
  pose proof (Hall _ _ _ eq_refl R2) as F2.
  rewrite E1 in F1. rewrite E2 in F2. rewrite <- F1 in F2. discriminate F2.
Qed.
